(** * Jukebox: the room coordinator of [music_voting_server.ts]

    A shallow embedding of the in-memory state of the voting server (the
    [rooms] and [participantRooms] maps), of its route handlers seen as
    state transformers, and of the ranking of a queue by votes, followed
    by the properties of the design document checked against them.

    Values the handlers draw from the environment ([Math.random],
    [uuidv4], [Date.now]) are arguments of the transformers. *)

From stdpp Require Import gmap strings list fin_maps sorting.
From Stdlib Require Import ZArith Lia.

Local Open Scope Z_scope.

(** ** Types (lines 15-50 of the server) *)

Record Participant := mkParticipant {
  p_id : string;
  p_name : string;
  p_avatar : option string;
  p_joinedAt : Z
}.

Record Song := mkSong {
  s_id : string;
  s_title : string;
  s_artist : string;
  s_albumArt : option string;
  s_duration : Z;
  s_spotifyId : option string;
  s_addedBy : string;
  s_addedAt : Z
}.

(** [vote: 'up' | 'down'] *)
Inductive Direction := up | down.

Record Vote := mkVote {
  v_participantId : string;
  v_songId : string;
  v_vote : Direction;
  v_timestamp : Z
}.

Record Room := mkRoom {
  r_id : string;
  r_name : string;
  r_createdBy : string;
  r_createdAt : Z;
  r_participants : gmap string Participant;
  r_queue : list Song;
  r_currentSong : option Song;
  r_votes : gmap string (list Vote);
  r_isActive : bool
}.

Global Instance Direction_eq_dec : EqDecision Direction.
Proof. solve_decision. Defined.
Global Instance Vote_eq_dec : EqDecision Vote.
Proof. solve_decision. Defined.
Global Instance Song_eq_dec : EqDecision Song.
Proof. solve_decision. Defined.
Global Instance Participant_eq_dec : EqDecision Participant.
Proof. solve_decision. Defined.

(** ** Utility functions (lines 86-98) *)

(** [votes.reduce((score, vote) => score + (vote.vote === 'up' ? 1 : -1), 0)] *)
Definition calculateSongScore (votes : list Vote) : Z :=
  fold_left
    (fun score vote => score + (match v_vote vote with up => 1 | down => -1 end))
    votes 0.

(** [Array.prototype.sort] with a comparator [cmp]: the sort is stable, so
    an element is placed in front of the first element of the already
    sorted tail that must not precede it ([cmp x y <= 0] keeps [x] in
    front of [y]). *)
Fixpoint sort_insert {A} (cmp : A -> A -> Z) (x : A) (l : list A) : list A :=
  match l with
  | [] => [x]
  | y :: l' => if cmp x y <=? 0 then x :: y :: l' else y :: sort_insert cmp x l'
  end.

Definition array_sort {A} (cmp : A -> A -> Z) (l : list A) : list A :=
  foldr (sort_insert cmp) [] l.

(** [votesMap.get(a.id) || []] *)
Definition votesOf (votesMap : gmap string (list Vote)) (id : string) : list Vote :=
  default [] (votesMap !! id).

Definition songScore (votesMap : gmap string (list Vote)) (s : Song) : Z :=
  calculateSongScore (votesOf votesMap (s_id s)).

Definition sortQueueByVotes (queue : list Song) (votesMap : gmap string (list Vote))
  : list Song :=
  array_sort
    (fun a b =>
       let scoreA := calculateSongScore (votesOf votesMap (s_id a)) in
       let scoreB := calculateSongScore (votesOf votesMap (s_id b)) in
       scoreB - scoreA)
    queue.

(** ** In-memory storage (lines 78-79) *)

Record Store := mkStore {
  rooms : gmap string Room;
  participantRooms : gmap string string   (* participantId -> roomId *)
}.

Definition emptyStore : Store := mkStore ∅ ∅.

(** ** What a handler answers *)

(** One constructor per error answer of the handlers. *)
Inductive Error :=
  | RoomAndCreatorNameRequired   (* 400, create *)
  | NameRequired                 (* 400, join *)
  | RoomNotFound                 (* 404 *)
  | RoomNoLongerActive           (* 400, join *)
  | NotAParticipant              (* 403 *)
  | VoteMustBeUpOrDown           (* 400, vote *)
  | ParticipantNotFound          (* 404, leave *)
  | FailedToAddSong.             (* 500, the catch of the queue handler *)


(** The error kinds of the design document. *)
Inductive ErrorKind :=
  ValidationError | NotFoundError | ForbiddenError | InactiveRoomError | InternalError.

Definition kind (e : Error) : ErrorKind :=
  match e with
  | RoomAndCreatorNameRequired | NameRequired | VoteMustBeUpOrDown => ValidationError
  | RoomNotFound | ParticipantNotFound => NotFoundError
  | NotAParticipant => ForbiddenError
  | RoomNoLongerActive => InactiveRoomError
  | FailedToAddSong => InternalError
  end.

(** The room as it is sent in an answer. The listing of the participants
    is taken from the map; its order is not modelled. *)
Record RoomView := mkRoomView {
  rv_id : string;
  rv_name : string;
  rv_participants : list Participant;
  rv_queue : list Song;
  rv_currentSong : option Song;
  rv_isActive : bool
}.

Inductive Reply :=
  | Created (roomId participantId : string) (room : RoomView)
  | Joined (participantId : string) (room : RoomView)
  | SongAdded (song : Song)
  | Voted (queue : list Song)
  | Left.

Inductive Response :=
  | Failure (e : Error)
  | Success (r : Reply).

(** ** Helpers for the JavaScript idioms of the handlers *)

(** [!name] on a field of the request body that is a string or missing. *)
Definition falsy (s : option string) : bool :=
  match s with
  | None => true
  | Some s => bool_decide (s = EmptyString)
  end.

Definition text (s : option string) : string := default EmptyString s.

(** [l.findIndex(p)]: the first index whose element satisfies [p], or -1. *)
Definition findIndex {A} (P : A -> Prop) `{!∀ x, Decision (P x)} (l : list A) : Z :=
  match list_find P l with
  | Some (i, _) => Z.of_nat i
  | None => -1
  end.

(** [l.splice(i, 1)] for [i >= 0]. *)
Definition splice1 {A} (i : Z) (l : list A) : list A := delete (Z.to_nat i) l.

(** [['up', 'down'].includes(vote)] and the direction it denotes. *)
Definition parseVote (vote : string) : option Direction :=
  if bool_decide (vote = "up"%string) then Some up
  else if bool_decide (vote = "down"%string) then Some down
  else None.

(** The fields of [req.body.song]. *)
Record SongFields := mkSongFields {
  sf_title : string;
  sf_artist : string;
  sf_albumArt : option string;
  sf_duration : Z;
  sf_spotifyId : option string
}.

Definition participantList (ps : gmap string Participant) : list Participant :=
  (map_to_list ps).*2.

(** ** Routes *)

(** [POST /api/rooms] (lines 103-150). [roomId] is the value of
    [generateRoomCode()], [participantId] of [uuidv4()], [joinedAt] and
    [createdAt] of the two calls of [Date.now()]. *)
Definition createRoom (name creatorName creatorAvatar : option string)
    (roomId participantId : string) (joinedAt createdAt : Z)
    (st : Store) : Store * Response :=
  if falsy name || falsy creatorName then (st, Failure RoomAndCreatorNameRequired)
  else
    let creator := mkParticipant participantId (text creatorName) creatorAvatar joinedAt in
    let room :=
      mkRoom roomId (text name) participantId createdAt
             {[ participantId := creator ]} [] None ∅ true in
    (mkStore (<[roomId := room]> (rooms st))
             (<[participantId := roomId]> (participantRooms st)),
     Success (Created roomId participantId
                (mkRoomView (r_id room) (r_name room)
                            (participantList (r_participants room))
                            (r_queue room) (r_currentSong room) (r_isActive room)))).

(** [POST /api/rooms/:roomId/join] (lines 153-202). *)
Definition joinRoom (roomId : string) (name avatar : option string)
    (participantId : string) (now : Z) (st : Store) : Store * Response :=
  if falsy name then (st, Failure NameRequired)
  else
    match rooms st !! roomId with
    | None => (st, Failure RoomNotFound)
    | Some room =>
      if negb (r_isActive room) then (st, Failure RoomNoLongerActive)
      else
        let participant := mkParticipant participantId (text name) avatar now in
        let room' :=
          mkRoom (r_id room) (r_name room) (r_createdBy room) (r_createdAt room)
                 (<[participantId := participant]> (r_participants room))
                 (r_queue room) (r_currentSong room) (r_votes room) (r_isActive room) in
        (mkStore (<[roomId := room']> (rooms st))
                 (<[participantId := roomId]> (participantRooms st)),
         Success (Joined participantId
                    (mkRoomView (r_id room') (r_name room')
                                (participantList (r_participants room'))
                                (sortQueueByVotes (r_queue room') (r_votes room'))
                                (r_currentSong room') (r_isActive room'))))
    end.

(** [POST /api/rooms/:roomId/queue] (lines 205-246). [song] is [None] when
    the body has no [song]: reading [song.title] then throws, and the
    [catch] answers 500. [songId] is the value of [uuidv4()]. *)
Definition addSong (roomId participantId : string) (song : option SongFields)
    (songId : string) (now : Z) (st : Store) : Store * Response :=
  match rooms st !! roomId with
  | None => (st, Failure RoomNotFound)
  | Some room =>
    if negb (bool_decide (is_Some (r_participants room !! participantId)))
    then (st, Failure NotAParticipant)
    else
      match song with
      | None => (st, Failure FailedToAddSong)
      | Some song =>
        let newSong :=
          mkSong songId (sf_title song) (sf_artist song) (sf_albumArt song)
                 (sf_duration song) (sf_spotifyId song) participantId now in
        let room' :=
          mkRoom (r_id room) (r_name room) (r_createdBy room) (r_createdAt room)
                 (r_participants room)
                 (r_queue room ++ [newSong]) (r_currentSong room)
                 (<[s_id newSong := []]> (r_votes room)) (r_isActive room) in
        (mkStore (<[roomId := room']> (rooms st)) (participantRooms st),
         Success (SongAdded newSong))
      end
  end.

(** [POST /api/rooms/:roomId/vote] (lines 249-300). *)
Definition castVote (roomId participantId songId vote : string) (now : Z)
    (st : Store) : Store * Response :=
  match parseVote vote with
  | None => (st, Failure VoteMustBeUpOrDown)
  | Some direction =>
    match rooms st !! roomId with
    | None => (st, Failure RoomNotFound)
    | Some room =>
      if negb (bool_decide (is_Some (r_participants room !! participantId)))
      then (st, Failure NotAParticipant)
      else
        let songVotes := votesOf (r_votes room) songId in
        let existingVoteIndex :=
          findIndex (fun v => v_participantId v = participantId) songVotes in
        let songVotes :=
          if existingVoteIndex >=? 0 then splice1 existingVoteIndex songVotes
          else songVotes in
        let newVote := mkVote participantId songId direction now in
        let songVotes := songVotes ++ [newVote] in
        let room' :=
          mkRoom (r_id room) (r_name room) (r_createdBy room) (r_createdAt room)
                 (r_participants room) (r_queue room) (r_currentSong room)
                 (<[songId := songVotes]> (r_votes room)) (r_isActive room) in
        (mkStore (<[roomId := room']> (rooms st)) (participantRooms st),
         Success (Voted (sortQueueByVotes (r_queue room') (r_votes room'))))
    end
  end.

(** [POST /api/rooms/:roomId/leave] (lines 349-391). *)
Definition leaveRoom (roomId participantId : string) (st : Store)
    : Store * Response :=
  match rooms st !! roomId with
  | None => (st, Failure RoomNotFound)
  | Some room =>
    match r_participants room !! participantId with
    | None => (st, Failure ParticipantNotFound)
    | Some participant =>
      let participants := delete participantId (r_participants room) in
      let votes :=
        (fun votes =>
           filter (fun vote => v_participantId vote ≠ participantId) votes)
          <$> r_votes room in
      let isActive :=
        if bool_decide (size participants = 0%nat)
           || bool_decide (participantId = r_createdBy room)
        then false else r_isActive room in
      let room' :=
        mkRoom (r_id room) (r_name room) (r_createdBy room) (r_createdAt room)
               participants (r_queue room) (r_currentSong room) votes isActive in
      (mkStore (<[roomId := room']> (rooms st))
               (delete participantId (participantRooms st)),
       Success Left)
    end
  end.

(** ** The periodic cleanup (lines 404-418) *)

Definition ROOM_TIMEOUT : Z := 24 * 60 * 60 * 1000.

(** [!room.isActive || (now - room.createdAt > ROOM_TIMEOUT)] *)
Definition expired (now : Z) (room : Room) : bool :=
  negb (r_isActive room) || (now - r_createdAt room >? ROOM_TIMEOUT).

(** [room.participants.forEach((_, participantId) => participantRooms.delete(participantId))] *)
Definition dropParticipants (ps : gmap string Participant)
    (index : gmap string string) : gmap string string :=
  map_fold (fun participantId _ index => delete participantId index) index ps.

(** The callback of the [rooms.forEach] of the sweep. *)
Definition visit (now : Z) (roomId : string) (room : Room) (st : Store) : Store :=
  if expired now room
  then mkStore (delete roomId (rooms st))
               (dropParticipants (r_participants room) (participantRooms st))
  else st.

(** The sweep. The rooms it visits are the rooms stored when it starts:
    the only change it makes to [rooms] is to delete the room being
    visited. *)
Definition cleanup (now : Z) (st : Store) : Store :=
  map_fold (visit now) st (rooms st).

(** ** Runs of the server *)

Inductive Request :=
  | ReqCreate (name creatorName creatorAvatar : option string)
              (roomId participantId : string) (joinedAt createdAt : Z)
  | ReqJoin (roomId : string) (name avatar : option string)
            (participantId : string) (now : Z)
  | ReqAddSong (roomId participantId : string) (song : option SongFields)
               (songId : string) (now : Z)
  | ReqVote (roomId participantId songId vote : string) (now : Z)
  | ReqLeave (roomId participantId : string).

Definition handle (req : Request) (st : Store) : Store * Response :=
  match req with
  | ReqCreate name creatorName creatorAvatar roomId participantId joinedAt createdAt =>
      createRoom name creatorName creatorAvatar roomId participantId joinedAt createdAt st
  | ReqJoin roomId name avatar participantId now =>
      joinRoom roomId name avatar participantId now st
  | ReqAddSong roomId participantId song songId now =>
      addSong roomId participantId song songId now st
  | ReqVote roomId participantId songId vote now =>
      castVote roomId participantId songId vote now st
  | ReqLeave roomId participantId => leaveRoom roomId participantId st
  end.

(** What happens to the server: a request is handled, or the timer fires. *)
Inductive Event :=
  | Req (req : Request)
  | Tick (now : Z).

Definition exec (st : Store) (ev : Event) : Store :=
  match ev with
  | Req req => (handle req st).1
  | Tick now => cleanup now st
  end.

Definition run (evs : list Event) (st : Store) : Store := fold_left exec evs st.

(** The states the server can be in: it starts with both maps empty. *)
Inductive reachable : Store -> Prop :=
  | reachable_start : reachable emptyStore
  | reachable_exec st ev : reachable st -> reachable (exec st ev).

Definition isFailure (r : Response) : bool :=
  match r with Failure _ => true | Success _ => false end.

(** ** The read-only route (lines 303-346) *)

(** [{...vote, participant: room.participants.get(vote.participantId)}] *)
Record VoteView := mkVoteView {
  vv_vote : Vote;
  vv_participant : option Participant
}.

(** [{...song, score, votes: votesWithParticipants}] *)
Record SongView := mkSongView {
  sv_song : Song;
  sv_score : Z;
  sv_votes : list VoteView
}.

Record RoomState := mkRoomState {
  rs_id : string;
  rs_name : string;
  rs_participants : list Participant;
  rs_queue : list SongView;
  rs_currentSong : option Song;
  rs_isActive : bool
}.

(** [GET /api/rooms/:roomId]. [participantId] is the query parameter, which
    may be missing; the membership test is skipped when it is falsy. *)
Definition getRoomState (roomId : string) (participantId : option string)
    (st : Store) : Error + RoomState :=
  match rooms st !! roomId with
  | None => inl RoomNotFound
  | Some room =>
    if negb (falsy participantId)
       && negb (bool_decide (is_Some (r_participants room !! text participantId)))
    then inl NotAParticipant
    else
      let sortedQueue := sortQueueByVotes (r_queue room) (r_votes room) in
      let queueWithVotes :=
        (fun song =>
           let votes := votesOf (r_votes room) (s_id song) in
           let score := calculateSongScore votes in
           let votesWithParticipants :=
             (fun vote =>
                mkVoteView vote (r_participants room !! v_participantId vote))
               <$> votes in
           mkSongView song score votesWithParticipants)
          <$> sortedQueue in
      inr (mkRoomState (r_id room) (r_name room)
                       (participantList (r_participants room))
                       queueWithVotes (r_currentSong room) (r_isActive room))
  end.

(** ** The room code (lines 82-84) *)

(** [toUpperCase] on the characters a base-36 text is made of: the letters
    a to z become A to Z, digits and the point stay. *)
Definition upperAscii (c : Ascii.ascii) : Ascii.ascii :=
  let n := Ascii.nat_of_ascii c in
  if ((97 <=? n) && (n <=? 122))%nat then Ascii.ascii_of_nat (n - 32) else c.

Fixpoint toUpperCase (s : string) : string :=
  match s with
  | EmptyString => EmptyString
  | String c s' => String (upperAscii c) (toUpperCase s')
  end.

(** [Math.random().toString(36).substring(2, 8).toUpperCase()], where
    [random36] is the text [Math.random().toString(36)]. *)
Definition generateRoomCode (random36 : string) : string :=
  toUpperCase (String.substring 2 6 random36).

(** ** Vocabulary of the properties *)

(** The number of votes of a direction in a list of votes. *)
Definition countVotes (d : Direction) (votes : list Vote) : nat :=
  length (filter (fun v => v_vote v = d) votes).

(** Descending order of score. *)
Definition scoreGe (votesMap : gmap string (list Vote)) (a b : Song) : Prop :=
  songScore votesMap b <= songScore votesMap a.

(** A vote is stored in a room when one of the lists of its votes
    mapping holds it. *)
Definition stored (room : Room) (v : Vote) : Prop :=
  exists songId votes, r_votes room !! songId = Some votes /\ v ∈ votes.

(** Two votes of one participant on one song. *)
Definition samePair (v w : Vote) : Prop :=
  v_participantId v = v_participantId w /\ v_songId v = v_songId w.

(** At most one vote is stored for a pair of a participant and a song: two
    stored votes of one pair sit at the same place of the mapping. *)
Definition oneVotePerPair (room : Room) : Prop :=
  forall k1 k2 l1 l2 (i j : nat) v w,
    r_votes room !! k1 = Some l1 -> r_votes room !! k2 = Some l2 ->
    l1 !! i = Some v -> l2 !! j = Some w ->
    samePair v w -> k1 = k2 /\ i = j.

(** The shape the handlers keep the votes mapping in: the votes listed
    under a song id are votes on that song, by different participants. *)
Definition ledgerOk (votes : gmap string (list Vote)) : Prop :=
  forall songId l, votes !! songId = Some l ->
    Forall (fun v => v_songId v = songId) l /\ NoDup (v_participantId <$> l).

Definition storeOk (st : Store) : Prop :=
  forall roomId room, rooms st !! roomId = Some room ->
    r_id room = roomId /\ ledgerOk (r_votes room).

(** A vote request, and a sequence of them handled in order. *)
Record VoteRequest := mkVoteRequest {
  vr_roomId : string;
  vr_participantId : string;
  vr_songId : string;
  vr_vote : string;
  vr_now : Z
}.

Definition voteRequest (q : VoteRequest) : Request :=
  ReqVote (vr_roomId q) (vr_participantId q) (vr_songId q) (vr_vote q) (vr_now q).

Definition forPair (roomId participantId songId : string) (q : VoteRequest) : Prop :=
  vr_roomId q = roomId /\ vr_participantId q = participantId /\ vr_songId q = songId.

Global Instance forPair_dec roomId participantId songId q :
  Decision (forPair roomId participantId songId q).
Proof. unfold forPair. apply _. Defined.

(** The direction and timestamp of the most recent accepted vote of
    [participantId] on [songId] in room [roomId] when [reqs] are handled in
    order from [st]; [acc] when there is none. *)
Fixpoint lastVote (roomId participantId songId : string)
    (reqs : list VoteRequest) (st : Store) (acc : option (Direction * Z))
  : option (Direction * Z) :=
  match reqs with
  | [] => acc
  | q :: reqs =>
    let res := handle (voteRequest q) st in
    lastVote roomId participantId songId reqs res.1
      (if negb (isFailure res.2)
          && bool_decide (forPair roomId participantId songId q)
       then (fun d => (d, vr_now q)) <$> parseVote (vr_vote q)
       else acc)
  end.

(** The event is a create request for which [roomId] was generated. *)
Definition createsAt (roomId : string) (ev : Event) : Prop :=
  exists name creatorName creatorAvatar participantId joinedAt createdAt,
    ev = Req (ReqCreate name creatorName creatorAvatar roomId participantId
                        joinedAt createdAt).

(** The room [createRoom] builds. *)
Definition newRoom (name creatorName creatorAvatar : option string)
    (roomId participantId : string) (joinedAt createdAt : Z) : Room :=
  mkRoom roomId (text name) participantId createdAt
         {[ participantId :=
              mkParticipant participantId (text creatorName) creatorAvatar joinedAt ]}
         [] None ∅ true.

(** [participantId] is a participant of a room of [m] that the sweep at
    [now] deletes. *)
Definition expiredMember (now : Z) (m : gmap string Room) (participantId : string)
  : Prop :=
  exists roomId room,
    m !! roomId = Some room /\ expired now room = true
    /\ is_Some (r_participants room !! participantId).

(** What the vote handler makes of the list of votes of a song before it
    appends the new vote (lines 269-273). *)
Definition dropVoteOf (participantId : string) (songVotes : list Vote) : list Vote :=
  let existingVoteIndex :=
    findIndex (fun v => v_participantId v = participantId) songVotes in
  if existingVoteIndex >=? 0 then splice1 existingVoteIndex songVotes
  else songVotes.

(** The room stores the vote [(participantId, songId, d, t)] and no other
    vote of that participant on that song. *)
Definition onlyVote (room : Room) (participantId songId : string)
    (d : Direction) (t : Z) : Prop :=
  stored room (mkVote participantId songId d t)
  /\ forall v, stored room v ->
       v_participantId v = participantId -> v_songId v = songId ->
       v = mkVote participantId songId d t.

(** The room with another votes mapping. *)
Definition withVotes (room : Room) (votes : gmap string (list Vote)) : Room :=
  mkRoom (r_id room) (r_name room) (r_createdBy room) (r_createdAt room)
         (r_participants room) (r_queue room) (r_currentSong room)
         votes (r_isActive room).

(** The value of a vote in a score. *)
Definition voteValue (d : Direction) : Z :=
  match d with up => 1 | down => -1 end.


(** What every room of a reachable store satisfies, besides [storeOk]. *)
Record roomInv (room : Room) : Prop := mkRoomInv {
  inv_currentSong : r_currentSong room = None;
  inv_queue : forall s, s ∈ r_queue room -> is_Some (r_votes room !! s_id s);
  inv_voters : forall v, stored room v ->
                 is_Some (r_participants room !! v_participantId v);
  inv_creator : r_isActive room = true ->
                is_Some (r_participants room !! r_createdBy room)
}.

Definition storeInv (st : Store) : Prop :=
  forall roomId room, rooms st !! roomId = Some room -> roomInv room.

(** What stays of a room while it is stored: its identity, its songs in
    their order, and the keys of its votes mapping. *)
Definition extends (room room' : Room) : Prop :=
  r_id room' = r_id room /\ r_name room' = r_name room
  /\ r_createdBy room' = r_createdBy room /\ r_createdAt room' = r_createdAt room
  /\ r_queue room `prefix_of` r_queue room'
  /\ (forall k, is_Some (r_votes room !! k) -> is_Some (r_votes room' !! k)).

(** No participant is gained. *)
Definition noNewcomer (room room' : Room) : Prop :=
  forall p, is_Some (r_participants room' !! p) -> is_Some (r_participants room !! p).

(** ** Sample runs

    The scenarios of the design document: Alice creates the room, Bob joins,
    each adds a song, and they vote. *)

Definition twoStore : Store :=
  run [Req (ReqCreate (Some "Party"%string) (Some "Alice"%string) None
                      "ABC123" "alice" 10 11);
       Req (ReqJoin "ABC123" (Some "Bob"%string) None "bob" 20)]
      emptyStore.

Definition demoEvents : list Event :=
  [Req (ReqCreate (Some "Party"%string) (Some "Alice"%string) None
                  "ABC123" "alice" 10 11);
   Req (ReqJoin "ABC123" (Some "Bob"%string) None "bob" 20);
   Req (ReqAddSong "ABC123" "alice"
                   (Some (mkSongFields "A" "X" None 180 None)) "songA" 30);
   Req (ReqAddSong "ABC123" "bob"
                   (Some (mkSongFields "B" "Y" None 200 None)) "songB" 40);
   Req (ReqVote "ABC123" "alice" "songB" "up" 50);
   Req (ReqVote "ABC123" "bob" "songB" "up" 60);
   Req (ReqVote "ABC123" "alice" "songA" "down" 70)].

Definition demoStore : Store := run demoEvents emptyStore.

(** Bob changes his vote on the second song from up to down. *)
Definition demoVotes : list VoteRequest :=
  [mkVoteRequest "ABC123" "bob" "songB" "up" 80;
   mkVoteRequest "ABC123" "alice" "songA" "up" 85;
   mkVoteRequest "ABC123" "bob" "songB" "down" 90].

(** The creator has left; Bob is still a participant. *)
Definition inactiveStore : Store :=
  run [Req (ReqCreate (Some "Party"%string) (Some "Alice"%string) None
                      "ABC123" "alice" 10 11);
       Req (ReqJoin "ABC123" (Some "Bob"%string) None "bob" 20);
       Req (ReqLeave "ABC123" "alice")]
      emptyStore.

(** A room created at time 0 and one created 24 hours later. *)
Definition agedStore : Store :=
  run [Req (ReqCreate (Some "Old"%string) (Some "Alice"%string) None
                      "OLD000" "alice" 0 0);
       Req (ReqCreate (Some "New"%string) (Some "Bob"%string) None
                      "NEW000" "bob" 86400000 86400000)]
      emptyStore.

(** * Properties *)

(** ** The sample runs, evaluated *)

Example score_of_three_votes :
  calculateSongScore
    [mkVote "alice" "songA" up 1; mkVote "bob" "songA" down 2;
     mkVote "carol" "songA" up 3] = 1.
Proof. reflexivity. Qed.

(** The second song has two up votes, the first one down vote. *)
Example demo_ranking :
  (fun room => s_id <$> sortQueueByVotes (r_queue room) (r_votes room))
    <$> rooms demoStore !! "ABC123"%string
  = Some ["songB"%string; "songA"%string].
Proof. vm_compute. reflexivity. Qed.

(** Before any vote both songs score 0 and are ranked as they were added. *)
Example tie_keeps_queue_order :
  let st := run (take 4 demoEvents) emptyStore in
  (fun room => s_id <$> sortQueueByVotes (r_queue room) (r_votes room))
    <$> rooms st !! "ABC123"%string
  = Some ["songA"%string; "songB"%string].
Proof. vm_compute. reflexivity. Qed.

(** Bob's second vote on the second song replaces his first. *)
Example demo_votes_replaced :
  (fun room => r_votes room !! "songB"%string)
    <$> rooms (run (Req ∘ voteRequest <$> demoVotes) demoStore) !! "ABC123"%string
  = Some (Some [mkVote "alice" "songB" up 50; mkVote "bob" "songB" down 90]).
Proof. vm_compute. reflexivity. Qed.

(** A join of the room the creator has left is refused. *)
Example join_after_creator_left :
  (joinRoom "ABC123" (Some "Carol"%string) None "carol" 30 inactiveStore).2
  = Failure RoomNoLongerActive.
Proof. reflexivity. Qed.

(** ** The score *)

Lemma calculateSongScore_from (votes : list Vote) (z : Z) :
  fold_left
    (fun score vote => score + (match v_vote vote with up => 1 | down => -1 end))
    votes z
  = z + Z.of_nat (countVotes up votes) - Z.of_nat (countVotes down votes).
Proof.
  revert z. induction votes as [|v votes IH]; intros z; simpl.
  - unfold countVotes. simpl. lia.
  - rewrite IH. unfold countVotes. rewrite !filter_cons.
    destruct (v_vote v); repeat case_decide; try congruence; simpl; lia.
Qed.

(** C3: the score of a list of votes is the number of its up votes minus
    the number of its down votes, and the empty list scores 0. *)
Theorem calculateSongScore_up_minus_down :
  (forall votes : list Vote,
     calculateSongScore votes
     = Z.of_nat (countVotes up votes) - Z.of_nat (countVotes down votes))
  /\ calculateSongScore [] = 0.
Proof.
  split; [|reflexivity].
  intros votes. unfold calculateSongScore. rewrite calculateSongScore_from. lia.
Qed.

(** ** The sort *)

Section sort_by_key.
Context {A : Type} (key : A -> Z).

(** The comparator of [sortQueueByVotes], higher key first, and the order
    it sorts into. *)
Local Abbreviation cmp := (fun a b : A => key b - key a).
Local Abbreviation R := (fun a b : A => key b <= key a).

Lemma sort_insert_perm x l : sort_insert cmp x l ≡ₚ x :: l.
Proof.
  induction l as [|y l IH]; simpl; [done|].
  destruct (cmp x y <=? 0); [done|].
  rewrite IH. apply Permutation_swap.
Qed.

Lemma array_sort_perm l : array_sort cmp l ≡ₚ l.
Proof.
  induction l as [|x l IH]; simpl; [done|].
  rewrite sort_insert_perm. by f_equiv.
Qed.

Lemma sort_insert_sorted x l :
  StronglySorted R l -> StronglySorted R (sort_insert cmp x l).
Proof.
  induction 1 as [|y l Hl IH Hy]; simpl.
  - repeat constructor.
  - destruct (Z.leb_spec (cmp x y) 0) as [Hle|Hgt]; simpl in *.
    + constructor; [by constructor|].
      constructor; [lia|].
      eapply Forall_impl; [exact Hy|]. simpl. intros; lia.
    + constructor; [done|].
      rewrite sort_insert_perm. constructor; [lia|done].
Qed.

Lemma array_sort_sorted l : StronglySorted R (array_sort cmp l).
Proof.
  induction l as [|x l IH]; simpl; [constructor|].
  by apply sort_insert_sorted.
Qed.

Lemma sort_insert_stable z x l :
  filter (fun a => key a = z) (sort_insert cmp x l)
  = filter (fun a => key a = z) (x :: l).
Proof.
  induction l as [|y l IH]; simpl; [done|].
  destruct (Z.leb_spec (cmp x y) 0) as [Hle|Hgt]; [done|].
  simpl in *.
  rewrite (filter_cons _ y), IH, !filter_cons.
  repeat case_decide; try done; lia.
Qed.

Lemma array_sort_stable z l :
  filter (fun a => key a = z) (array_sort cmp l) = filter (fun a => key a = z) l.
Proof.
  induction l as [|x l IH]; simpl; [done|].
  rewrite sort_insert_stable, !filter_cons, IH. done.
Qed.
End sort_by_key.

(** C1: the ranked queue is a permutation of the queue, in descending
    order of score, and the songs of any one score come in the order they
    have in the queue. *)
Theorem sortQueueByVotes_stable_descending
    (queue : list Song) (votesMap : gmap string (list Vote)) :
  sortQueueByVotes queue votesMap ≡ₚ queue
  /\ StronglySorted (scoreGe votesMap) (sortQueueByVotes queue votesMap)
  /\ forall z : Z,
       filter (fun s => songScore votesMap s = z) (sortQueueByVotes queue votesMap)
       = filter (fun s => songScore votesMap s = z) queue.
Proof.
  split; [|split].
  - apply (array_sort_perm (songScore votesMap)).
  - apply (array_sort_sorted (songScore votesMap)).
  - intros z. apply (array_sort_stable (songScore votesMap)).
Qed.

(** ** Failing calls *)

Ltac handler_cases :=
  unfold handle, createRoom, joinRoom, addSong, castVote, leaveRoom in *;
  repeat case_match; simplify_eq/=.

Lemma handle_failure (req : Request) (st : Store) :
  isFailure (handle req st).2 = true -> (handle req st).1 = st.
Proof. destruct req; handler_cases; done. Qed.

(** C10: a request that is answered by an error leaves both maps of the
    store as they were. *)
Theorem failure_leaves_store_unchanged (req : Request) (st : Store) :
  isFailure (handle req st).2 = true ->
  (handle req st).1 = st
  /\ rooms (handle req st).1 = rooms st
  /\ participantRooms (handle req st).1 = participantRooms st.
Proof. intros H. by rewrite (handle_failure req st H). Qed.

Lemma failure_leaves_store_unchanged_witness :
  let st := (handle (ReqCreate (Some "Party"%string) (Some "Alice"%string) None
                               "ABC123" "p1" 10 11) emptyStore).1 in
  let req := ReqVote "ABC123" "p2" "s1" "up" 20 in
  (handle req st).2 = Failure NotAParticipant /\ (handle req st).1 = st.
Proof.
  intros st req. split; [reflexivity|].
  apply (failure_leaves_store_unchanged req st). reflexivity.
Defined.

(** ** Leaving *)

Lemma votesOf_fmap (f : list Vote -> list Vote) votes songId :
  f [] = [] -> votesOf (f <$> votes) songId = f (votesOf votes songId).
Proof.
  intros Hf. unfold votesOf. rewrite lookup_fmap.
  by destruct (votes !! songId).
Qed.

(** C8: after a leave that succeeds, no vote of the departed participant
    is stored in the room, and the votes a score is computed from are the
    former ones without those of the departed participant. *)
Theorem leaveRoom_purges_votes (roomId participantId : string) (st : Store) :
  (leaveRoom roomId participantId st).2 = Success Left ->
  exists room room',
    rooms st !! roomId = Some room
    /\ is_Some (r_participants room !! participantId)
    /\ rooms (leaveRoom roomId participantId st).1 !! roomId = Some room'
    /\ (forall v, stored room' v -> v_participantId v <> participantId)
    /\ (forall songId,
          votesOf (r_votes room') songId
          = filter (fun v => v_participantId v <> participantId)
                   (votesOf (r_votes room) songId))
    /\ (forall s,
          songScore (r_votes room') s
          = calculateSongScore
              (filter (fun v => v_participantId v <> participantId)
                      (votesOf (r_votes room) (s_id s)))).
Proof.
  intros Hok. unfold leaveRoom in *.
  destruct (rooms st !! roomId) as [room|] eqn:Hroom; [|done].
  destruct (r_participants room !! participantId) as [p|] eqn:Hp; [|done].
  simpl. eexists room, _. rewrite lookup_insert_eq.
  split_and!; [done|by eexists|done|..]; simpl.
  - intros v (songId & votes & Hl & Hv); simpl in *.
    apply lookup_fmap_Some in Hl as (votes0 & <- & _).
    by apply list_elem_of_filter in Hv as [? _].
  - intros songId. by rewrite votesOf_fmap.
  - intros s. unfold songScore. by rewrite votesOf_fmap.
Qed.


Lemma leaveRoom_purges_votes_witness :
  exists room room',
    rooms demoStore !! "ABC123"%string = Some room
    /\ is_Some (r_participants room !! "bob"%string)
    /\ rooms (leaveRoom "ABC123" "bob" demoStore).1 !! "ABC123"%string = Some room'
    /\ (forall v, stored room' v -> v_participantId v <> "bob"%string)
    /\ (forall songId,
          votesOf (r_votes room') songId
          = filter (fun v => v_participantId v <> "bob"%string)
                   (votesOf (r_votes room) songId))
    /\ (forall s,
          songScore (r_votes room') s
          = calculateSongScore
              (filter (fun v => v_participantId v <> "bob"%string)
                      (votesOf (r_votes room) (s_id s)))).
Proof. apply (leaveRoom_purges_votes "ABC123" "bob" demoStore). reflexivity. Defined.

(** ** Inactive rooms *)


(** Against C7 as stated: in a room the creator has left, the remaining
    member adds a song and votes on it; both requests succeed and change
    the room. *)
Lemma inactive_room_accepts_song_and_vote :
  let addB := ReqAddSong "ABC123" "bob"
                         (Some (mkSongFields "B" "Y" None 200 None)) "songB" 40 in
  let voteB := ReqVote "ABC123" "bob" "songB" "up" 50 in
  (r_isActive <$> rooms inactiveStore !! "ABC123"%string) = Some false
  /\ (handle addB inactiveStore).2
     = Success (SongAdded (mkSong "songB" "B" "Y" None 200 None "bob" 40))
  /\ (handle addB inactiveStore).1 <> inactiveStore
  /\ isFailure (handle voteB inactiveStore).2 = false
  /\ (handle voteB inactiveStore).1 <> inactiveStore.
Proof.
  intros addB voteB. split_and!; try reflexivity.
  - intros H.
    apply (f_equal (fun st => r_queue <$> rooms st !! "ABC123"%string)) in H.
    vm_compute in H. discriminate.
  - intros H.
    apply (f_equal (fun st => r_votes <$> rooms st !! "ABC123"%string)) in H.
    vm_compute in H. discriminate.
Qed.

(** C7, amended: on a stored room that is not active a join fails and
    leaves the store as it was, with the inactive-room error when a name
    is given. The inactive-room error is answered to no other request: a
    member of an inactive room still adds songs and votes. *)
Theorem inactive_room_gates_join_only (st : Store) (roomId : string) (room : Room) :
  rooms st !! roomId = Some room -> r_isActive room = false ->
  (forall name avatar participantId now,
      joinRoom roomId name avatar participantId now st
      = (st, Failure (if falsy name then NameRequired else RoomNoLongerActive)))
  /\ (forall req st0 e,
        (handle req st0).2 = Failure e -> kind e = InactiveRoomError ->
        exists rid name avatar participantId now,
          req = ReqJoin rid name avatar participantId now)
  /\ (forall participantId song songId now,
        is_Some (r_participants room !! participantId) ->
        isFailure (addSong roomId participantId (Some song) songId now st).2 = false)
  /\ (forall participantId songId vote now,
        is_Some (r_participants room !! participantId) ->
        is_Some (parseVote vote) ->
        isFailure (castVote roomId participantId songId vote now st).2 = false).
Proof.
  intros Hroom Hact. split_and!.
  - intros name avatar participantId now. unfold joinRoom.
    rewrite Hroom, Hact. by destruct (falsy name).
  - intros req st0 e He Hk. destruct req; handler_cases; try done; eauto 10.
  - intros participantId song songId now Hp. unfold addSong.
    rewrite Hroom, (bool_decide_eq_true_2 _ Hp). done.
  - intros participantId songId vote now Hp [d Hd]. unfold castVote.
    rewrite Hd, Hroom, (bool_decide_eq_true_2 _ Hp). done.
Qed.

Lemma inactive_room_gates_join_only_witness :
  joinRoom "ABC123" (Some "Carol"%string) None "carol" 30 inactiveStore
  = (inactiveStore, Failure RoomNoLongerActive).
Proof.
  destruct (inactive_room_gates_join_only inactiveStore "ABC123"
              (mkRoom "ABC123" "Party" "alice" 11
                 {[ "bob"%string := mkParticipant "bob" "Bob" None 20 ]}
                 [] None ∅ false)) as [Hjoin _]; [reflexivity..|].
  exact (Hjoin (Some "Carol"%string) None "carol"%string 30).
Defined.

(** ** The cleanup sweep *)

Lemma dropParticipants_lookup (ps : gmap string Participant)
    (index : gmap string string) (participantId : string) :
  dropParticipants ps index !! participantId
  = match ps !! participantId with
    | Some _ => None
    | None => index !! participantId
    end.
Proof.
  unfold dropParticipants. revert participantId.
  apply (map_fold_weak_ind
           (fun (r : gmap string string) (m : gmap string Participant) =>
              forall pid, r !! pid
                          = match m !! pid with
                            | Some _ => None
                            | None => index !! pid
                            end)).
  - intros pid. by rewrite lookup_empty.
  - intros i x m r Hi IH pid.
    destruct (decide (i = pid)) as [->|Hne].
    + by rewrite lookup_delete_eq, lookup_insert_eq.
    + by rewrite lookup_delete_ne, lookup_insert_ne, IH.
Qed.

Section cleanup.
Context (now : Z).

Lemma expiredMember_insert_ne m i x pid :
  m !! i = None -> expired now x = false ->
  expiredMember now (<[i:=x]> m) pid <-> expiredMember now m pid.
Proof.
  intros Hi Hx. split; intros (k & room & Hk & He & Hp).
  - destruct (decide (i = k)) as [->|Hne].
    + rewrite lookup_insert_eq in Hk. congruence.
    + rewrite lookup_insert_ne in Hk by done. by exists k, room.
  - exists k, room. split; [|done].
    rewrite lookup_insert_ne; [done|]. intros ->. congruence.
Qed.

Lemma expiredMember_insert m i x pid :
  m !! i = None -> expired now x = true ->
  expiredMember now (<[i:=x]> m) pid
  <-> is_Some (r_participants x !! pid) \/ expiredMember now m pid.
Proof.
  intros Hi Hx. split.
  - intros (k & room & Hk & He & Hp).
    destruct (decide (i = k)) as [->|Hne].
    + rewrite lookup_insert_eq in Hk. left. congruence.
    + rewrite lookup_insert_ne in Hk by done. right. by exists k, room.
  - intros [Hp|(k & room & Hk & He & Hp)].
    + exists i, x. by rewrite lookup_insert_eq.
    + exists k, room. split; [|done].
      rewrite lookup_insert_ne; [done|]. intros ->. congruence.
Qed.

Lemma visit_fold_rooms (st0 : Store) (m : gmap string Room) (k : string) :
  rooms (map_fold (visit now) st0 m) !! k
  = match m !! k with
    | Some room => if expired now room then None else rooms st0 !! k
    | None => rooms st0 !! k
    end.
Proof.
  revert k.
  apply (map_fold_weak_ind
           (fun (r : Store) (m : gmap string Room) =>
              forall k, rooms r !! k
                        = match m !! k with
                          | Some room => if expired now room then None
                                         else rooms st0 !! k
                          | None => rooms st0 !! k
                          end)).
  - intros k. by rewrite lookup_empty.
  - intros i x m' r Hi IH k. unfold visit.
    destruct (decide (i = k)) as [->|Hne].
    + rewrite lookup_insert_eq.
      destruct (expired now x) eqn:Hx; simpl.
      * by rewrite lookup_delete_eq.
      * by rewrite IH, Hi.
    + rewrite lookup_insert_ne by done.
      destruct (expired now x); simpl; [rewrite lookup_delete_ne by done|];
        apply IH.
Qed.

Lemma visit_fold_index (st0 : Store) (m : gmap string Room) (pid : string) :
  (expiredMember now m pid ->
   participantRooms (map_fold (visit now) st0 m) !! pid = None)
  /\ (~ expiredMember now m pid ->
      participantRooms (map_fold (visit now) st0 m) !! pid = participantRooms st0 !! pid).
Proof.
  revert pid.
  apply (map_fold_weak_ind
           (fun (r : Store) (m : gmap string Room) =>
              forall pid,
                (expiredMember now m pid -> participantRooms r !! pid = None)
                /\ (~ expiredMember now m pid ->
                    participantRooms r !! pid = participantRooms st0 !! pid))).
  - intros pid. split; [|done].
    intros (k & room & Hk & _). by rewrite lookup_empty in Hk.
  - intros i x m' r Hi IH pid. destruct (IH pid) as [IHgone IHkept].
    unfold visit. destruct (expired now x) eqn:Hx; simpl.
    + rewrite dropParticipants_lookup, expiredMember_insert by done.
      destruct (r_participants x !! pid) as [p|] eqn:Hp.
      * split; [done|]. intros []. left. by eexists.
      * split.
        -- intros [[? ?]|Hm]; [done|]. by apply IHgone.
        -- intros Hn. apply IHkept. intros Hm. apply Hn. by right.
    + rewrite expiredMember_insert_ne by done. done.
Qed.

Lemma cleanup_rooms_lookup (st : Store) (k : string) :
  rooms (cleanup now st) !! k
  = match rooms st !! k with
    | Some room => if expired now room then None else Some room
    | None => None
    end.
Proof.
  unfold cleanup. rewrite visit_fold_rooms.
  destruct (rooms st !! k) as [room|] eqn:Hk; [|done].
  by destruct (expired now room).
Qed.

End cleanup.

Lemma expired_spec (now : Z) (room : Room) :
  expired now room = true
  <-> r_isActive room = false \/ now - r_createdAt room > 24 * 60 * 60 * 1000.
Proof.
  unfold expired, ROOM_TIMEOUT.
  rewrite orb_true_iff, negb_true_iff, Z.gtb_ltb, Z.ltb_lt.
  split; (intros [?|?]; [by left|right; lia]).
Qed.

(** C9: one sweep deletes a stored room exactly when it is not active or
    older than 24 hours, leaves every other room as it is, stores no new
    room, and removes the index entry of every participant of a deleted
    room; the other index entries stay. *)
Theorem cleanup_removes_exactly_expired (now : Z) (st : Store) :
  (forall roomId room, rooms st !! roomId = Some room ->
     (rooms (cleanup now st) !! roomId = None
      <-> r_isActive room = false \/ now - r_createdAt room > 24 * 60 * 60 * 1000)
     /\ (rooms (cleanup now st) !! roomId = None
         \/ rooms (cleanup now st) !! roomId = Some room))
  /\ (forall roomId, rooms st !! roomId = None ->
        rooms (cleanup now st) !! roomId = None)
  /\ (forall roomId room participantId,
        rooms st !! roomId = Some room ->
        rooms (cleanup now st) !! roomId = None ->
        is_Some (r_participants room !! participantId) ->
        participantRooms (cleanup now st) !! participantId = None)
  /\ (forall participantId,
        ~ expiredMember now (rooms st) participantId ->
        participantRooms (cleanup now st) !! participantId
        = participantRooms st !! participantId).
Proof.
  split_and!.
  - intros roomId room Hroom. rewrite cleanup_rooms_lookup, Hroom.
    rewrite <- expired_spec. destruct (expired now room); split; auto; done.
  - intros roomId Hroom. by rewrite cleanup_rooms_lookup, Hroom.
  - intros roomId room pid Hroom Hgone Hp.
    rewrite cleanup_rooms_lookup, Hroom in Hgone.
    destruct (expired now room) eqn:Hx; [|done].
    apply (visit_fold_index now st (rooms st) pid). by exists roomId, room.
  - intros pid Hn. by apply (visit_fold_index now st (rooms st) pid).
Qed.

(** ** The votes mapping *)

Lemma Forall_of_sublist {A} (P : A -> Prop) (l1 l2 : list A) :
  l1 `sublist_of` l2 -> Forall P l2 -> Forall P l1.
Proof.
  rewrite !Forall_forall. intros Hsub H x Hx.
  apply H. by eapply elem_of_sublist.
Qed.

Lemma dropVoteOf_sublist pid l : dropVoteOf pid l `sublist_of` l.
Proof.
  unfold dropVoteOf, splice1. case_match; [apply sublist_delete|done].
Qed.

Lemma dropVoteOf_elem pid l v :
  NoDup (v_participantId <$> l) ->
  v ∈ dropVoteOf pid l <-> v ∈ l /\ v_participantId v <> pid.
Proof.
  intros Hnd. unfold dropVoteOf, findIndex, splice1.
  destruct (list_find _ l) as [[i x]|] eqn:Hfind.
  - apply list_find_Some in Hfind as (Hi & Hx & _).
    rewrite Z.geb_leb.
    replace (0 <=? Z.of_nat i) with true by (symmetry; apply Z.leb_le; lia).
    rewrite Nat2Z.id, delete_take_drop.
    rewrite <- (take_drop_middle l i x Hi) in Hnd.
    rewrite <- (take_drop_middle l i x Hi) at 3.
    rewrite fmap_app, fmap_cons in Hnd.
    apply NoDup_app in Hnd as (_ & Hl & Hr).
    apply NoDup_cons in Hr as [Hr _].
    rewrite !elem_of_app, elem_of_cons. split.
    + intros [Hv|Hv]; (split; [tauto|]); intros Heq.
      * apply (Hl (v_participantId v)); [by apply list_elem_of_fmap_2|].
        rewrite Heq, <- Hx. apply elem_of_cons. by left.
      * apply Hr. rewrite Hx, <- Heq. by apply list_elem_of_fmap_2.
    + intros [[Hv|[->|Hv]] Hne]; tauto.
  - apply list_find_None in Hfind. simpl. split; [|tauto].
    intros Hv. split; [done|].
    rewrite Forall_forall in Hfind. by apply Hfind.
Qed.

Lemma votesOf_elem votes songId v :
  v ∈ votesOf votes songId <-> exists l, votes !! songId = Some l /\ v ∈ l.
Proof.
  unfold votesOf. destruct (votes !! songId) as [l|]; simpl.
  - split; [eauto|]. by intros (? & [= <-] & ?).
  - split; [by intros ?%elem_of_nil|]. by intros (? & ? & ?).
Qed.

Lemma ledgerOk_votesOf votes songId :
  ledgerOk votes ->
  Forall (fun v => v_songId v = songId) (votesOf votes songId)
  /\ NoDup (v_participantId <$> votesOf votes songId).
Proof.
  intros Hok. unfold votesOf. destruct (votes !! songId) as [l|] eqn:Hl; simpl.
  - by apply Hok.
  - split; constructor.
Qed.

Lemma ledgerOk_empty : ledgerOk ∅.
Proof. intros k l Hl. by rewrite lookup_empty in Hl. Qed.

Lemma ledgerOk_insert votes songId l :
  ledgerOk votes ->
  Forall (fun v => v_songId v = songId) l -> NoDup (v_participantId <$> l) ->
  ledgerOk (<[songId := l]> votes).
Proof.
  intros Hok Hl Hnd k l' Hk. destruct (decide (songId = k)) as [->|Hne].
  - rewrite lookup_insert_eq in Hk. by simplify_eq.
  - rewrite lookup_insert_ne in Hk by done. by apply Hok.
Qed.

Lemma ledgerOk_filter (P : Vote -> Prop) `{!forall v, Decision (P v)} votes :
  ledgerOk votes -> ledgerOk ((fun l => filter P l) <$> votes).
Proof.
  intros Hok k l' Hk. apply lookup_fmap_Some in Hk as (l & <- & Hl).
  destruct (Hok k l Hl) as [Hs Hnd]. split.
  - eapply Forall_of_sublist; [|exact Hs]. apply sublist_filter.
  - eapply sublist_NoDup; [exact Hnd|]. apply fmap_sublist, sublist_filter.
Qed.

Lemma ledgerOk_castVote votes pid songId d now :
  ledgerOk votes ->
  ledgerOk (<[songId := dropVoteOf pid (votesOf votes songId)
                          ++ [mkVote pid songId d now]]> votes).
Proof.
  intros Hok. destruct (ledgerOk_votesOf votes songId Hok) as [Hs Hnd].
  apply ledgerOk_insert; [done|..].
  - apply Forall_app. split; [|by repeat constructor].
    eapply Forall_of_sublist; [|exact Hs]. apply dropVoteOf_sublist.
  - rewrite fmap_app. apply NoDup_app. split_and!.
    + eapply sublist_NoDup; [exact Hnd|]. apply fmap_sublist, dropVoteOf_sublist.
    + intros p (v & -> & Hv)%list_elem_of_fmap Hin.
      apply dropVoteOf_elem in Hv as [_ Hne]; [|done].
      simpl in Hin. apply list_elem_of_singleton in Hin. done.
    + simpl. apply NoDup_singleton.
Qed.

Lemma ledgerOk_oneVotePerPair (room : Room) :
  ledgerOk (r_votes room) -> oneVotePerPair room.
Proof.
  intros Hok k1 k2 l1 l2 i j v w Hk1 Hk2 Hi Hj [Hp Hs].
  destruct (Hok k1 l1 Hk1) as [Hs1 Hnd1], (Hok k2 l2 Hk2) as [Hs2 _].
  pose proof (Forall_lookup_1 _ _ _ _ Hs1 Hi) as Hv.
  pose proof (Forall_lookup_1 _ _ _ _ Hs2 Hj) as Hw.
  simpl in *. assert (k1 = k2) as <- by congruence. split; [done|].
  simplify_eq. eapply NoDup_lookup; [exact Hnd1|..].
  - rewrite list_lookup_fmap, Hi. done.
  - rewrite list_lookup_fmap, Hj. simpl. by f_equal.
Qed.

(** ** What the handlers do to the store *)

Lemma castVote_success roomId pid songId vote now st :
  isFailure (castVote roomId pid songId vote now st).2 = false ->
  exists d room,
    parseVote vote = Some d
    /\ rooms st !! roomId = Some room
    /\ is_Some (r_participants room !! pid)
    /\ (castVote roomId pid songId vote now st).1
       = mkStore
           (<[roomId :=
                withVotes room
                  (<[songId := dropVoteOf pid (votesOf (r_votes room) songId)
                               ++ [mkVote pid songId d now]]> (r_votes room))]>
              (rooms st))
           (participantRooms st).
Proof.
  unfold castVote. intros H.
  destruct (parseVote vote) as [d|]; [|done].
  destruct (rooms st !! roomId) as [room|]; [|done].
  destruct (bool_decide (is_Some (r_participants room !! pid))) eqn:Hp; [|done].
  apply bool_decide_eq_true_1 in Hp. by exists d, room.
Qed.

Lemma castVote_accepts roomId room pid songId vote now st :
  rooms st !! roomId = Some room ->
  is_Some (r_participants room !! pid) ->
  is_Some (parseVote vote) ->
  isFailure (castVote roomId pid songId vote now st).2 = false.
Proof.
  intros Hroom Hp [d Hd]. unfold castVote.
  by rewrite Hd, Hroom, (bool_decide_eq_true_2 _ Hp).
Qed.

Lemma storeOk_handle req st : storeOk st -> storeOk (handle req st).1.
Proof.
  intros Hok.
  destruct (isFailure (handle req st).2) eqn:Hfail.
  { by rewrite handle_failure. }
  destruct req as [name cn av rid pid t1 t2 | rid name av pid now
                  | rid pid song sid now | rid pid sid vote now | rid pid].
  - unfold handle, createRoom in *. destruct (falsy name || falsy cn); [done|].
    intros k room Hk; simpl in Hk. destruct (decide (rid = k)) as [->|Hne].
    + rewrite lookup_insert_eq in Hk. simplify_eq; simpl.
      split; [done|apply ledgerOk_empty].
    + rewrite lookup_insert_ne in Hk by done. by apply Hok.
  - unfold handle, joinRoom in *. destruct (falsy name); [done|].
    destruct (rooms st !! rid) as [room0|] eqn:Hroom; [|done].
    destruct (r_isActive room0); [|done]. simpl.
    intros k room Hk; simpl in Hk. destruct (decide (rid = k)) as [->|Hne].
    + rewrite lookup_insert_eq in Hk. simplify_eq; simpl. by apply Hok.
    + rewrite lookup_insert_ne in Hk by done. by apply Hok.
  - unfold handle, addSong in *.
    destruct (rooms st !! rid) as [room0|] eqn:Hroom; [|done].
    destruct (bool_decide _); [|done]. destruct song as [song|]; [|done]. simpl.
    intros k room Hk; simpl in Hk. destruct (decide (rid = k)) as [->|Hne].
    + rewrite lookup_insert_eq in Hk. simplify_eq; simpl.
      destruct (Hok k room0 Hroom) as [Hid Hl]. split; [done|].
      apply ledgerOk_insert; [done|constructor..].
    + rewrite lookup_insert_ne in Hk by done. by apply Hok.
  - simpl in *. apply castVote_success in Hfail as (d & room0 & _ & Hroom & _ & ->).
    intros k room Hk; simpl in Hk. destruct (decide (rid = k)) as [->|Hne].
    + rewrite lookup_insert_eq in Hk. simplify_eq; simpl.
      destruct (Hok k room0 Hroom) as [Hid Hl]. split; [done|].
      by apply ledgerOk_castVote.
    + rewrite lookup_insert_ne in Hk by done. by apply Hok.
  - unfold handle, leaveRoom in *.
    destruct (rooms st !! rid) as [room0|] eqn:Hroom; [|done].
    destruct (r_participants room0 !! pid); [|done]. simpl.
    intros k room Hk; simpl in Hk. destruct (decide (rid = k)) as [->|Hne].
    + rewrite lookup_insert_eq in Hk. simplify_eq; simpl.
      destruct (Hok k room0 Hroom) as [Hid Hl]. split; [done|].
      by apply ledgerOk_filter.
    + rewrite lookup_insert_ne in Hk by done. by apply Hok.
Qed.

Lemma cleanup_rooms_Some now st k room :
  rooms (cleanup now st) !! k = Some room -> rooms st !! k = Some room.
Proof.
  rewrite cleanup_rooms_lookup. destruct (rooms st !! k) as [room0|]; [|done].
  by destruct (expired now room0).
Qed.

Lemma storeOk_exec st ev : storeOk st -> storeOk (exec st ev).
Proof.
  intros Hok. destruct ev as [req|now]; simpl.
  - by apply storeOk_handle.
  - intros k room Hk. apply Hok. by eapply cleanup_rooms_Some.
Qed.

Lemma run_snoc evs ev st : run (evs ++ [ev]) st = exec (run evs st) ev.
Proof. unfold run. by rewrite fold_left_app. Qed.

Lemma reachable_run evs st : reachable st -> reachable (run evs st).
Proof.
  revert st. induction evs as [|ev evs IH]; intros st Hst; simpl; [done|].
  apply IH. by constructor.
Qed.

Lemma reachable_storeOk st : reachable st -> storeOk st.
Proof.
  induction 1 as [|st ev _ IH].
  - intros k room Hk. simpl in Hk. by rewrite lookup_empty in Hk.
  - by apply storeOk_exec.
Qed.

(** ** One vote per participant and song *)

Lemma castVote_stored (room : Room) pid songId d now v :
  ledgerOk (r_votes room) ->
  stored (withVotes room
            (<[songId := dropVoteOf pid (votesOf (r_votes room) songId)
                         ++ [mkVote pid songId d now]]> (r_votes room))) v
  <-> v = mkVote pid songId d now
      \/ (stored room v /\ ~ (v_participantId v = pid /\ v_songId v = songId)).
Proof.
  intros Hok. destruct (ledgerOk_votesOf _ songId Hok) as [Hs Hnd].
  unfold stored; simpl. split.
  - intros (k & l & Hk & Hv). destruct (decide (songId = k)) as [->|Hne].
    + rewrite lookup_insert_eq in Hk. simplify_eq.
      apply elem_of_app in Hv as [Hv|Hv%list_elem_of_singleton]; [|by left].
      apply dropVoteOf_elem in Hv as [Hv Hp]; [|done]. right.
      split; [|tauto]. apply votesOf_elem in Hv as (l & ? & ?). by exists k, l.
    + rewrite lookup_insert_ne in Hk by done. right. split; [by exists k, l|].
      intros [_ Hsong]. destruct (Hok k l Hk) as [Hall _].
      rewrite Forall_forall in Hall. apply Hall in Hv. congruence.
  - intros [->|[(k & l & Hk & Hv) Hnot]].
    + eexists songId, _. rewrite lookup_insert_eq. split; [done|].
      apply elem_of_app. right. by apply list_elem_of_singleton.
    + destruct (decide (songId = k)) as [->|Hne].
      * eexists k, _. rewrite lookup_insert_eq. split; [done|].
        apply elem_of_app. left. apply dropVoteOf_elem; [done|].
        destruct (Hok k l Hk) as [Hall _]. rewrite Forall_forall in Hall.
        split; [apply votesOf_elem; by exists l|].
        intros Hp. apply Hnot. split; [done|]. by apply Hall.
      * exists k, l. by rewrite lookup_insert_ne.
Qed.

Lemma lastVote_onlyVote roomId pid songId reqs :
  forall st acc,
    storeOk st ->
    (forall d t, acc = Some (d, t) ->
       exists room, rooms st !! roomId = Some room /\ onlyVote room pid songId d t) ->
    forall d t,
      lastVote roomId pid songId reqs st acc = Some (d, t) ->
      exists room,
        rooms (run (Req ∘ voteRequest <$> reqs) st) !! roomId = Some room
        /\ onlyVote room pid songId d t.
Proof.
  induction reqs as [|q reqs IH]; intros st acc Hok Hacc d t Hlast; simpl in *.
  { by apply Hacc. }
  eapply IH; [by apply (storeOk_handle (voteRequest q))| |exact Hlast].
  clear IH Hlast d t. intros d t.
  destruct (isFailure (castVote _ _ _ _ _ st).2) eqn:Hfail; simpl.
  { intros Hd. pose proof (handle_failure (voteRequest q) st Hfail) as Hsame.
    simpl in Hsame. rewrite Hsame. by apply Hacc. }
  apply castVote_success in Hfail as (d' & room0 & Hparse & Hroom0 & _ & ->).
  destruct (Hok _ _ Hroom0) as [_ Hledger]. simpl.
  case_bool_decide as Hpair.
  - destruct Hpair as (-> & -> & ->). rewrite Hparse. intros [= <- <-].
    eexists. rewrite lookup_insert_eq. split; [done|]. split.
    + apply castVote_stored; [done|]. by left.
    + intros v Hv Hp Hs. apply castVote_stored in Hv as [->|[_ Hnot]]; tauto.
  - intros Hd. destruct (Hacc d t Hd) as (room & Hroom & Hst & Honly).
    destruct (decide (vr_roomId q = roomId)) as [Heq|Hne].
    + rewrite Heq in *. simplify_eq. eexists. rewrite lookup_insert_eq.
      split; [done|]. split.
      * apply castVote_stored; [done|]. right. split; [done|]. simpl.
        intros [? ?]. apply Hpair. by repeat split.
      * intros v Hv Hp Hs. apply castVote_stored in Hv as [->|[Hv _]]; [| |done].
        -- simpl in *. destruct Hpair. by repeat split.
        -- by apply Honly.
    + exists room. by rewrite lookup_insert_ne.
Qed.

(** C2: in every reachable state a room stores at most one vote for a
    participant and a song; after a sequence of vote requests the vote stored
    for a participant and a song is the one of the most recent accepted
    request of that participant on that song, with its direction and
    timestamp; and a vote request for a stored room, by a participant of it,
    with a direction up or down, is accepted whether or not a prior vote
    exists. *)
Theorem castVote_last_write_wins :
  (forall st roomId room,
      reachable st -> rooms st !! roomId = Some room -> oneVotePerPair room)
  /\ (forall st reqs roomId participantId songId d t,
        reachable st ->
        lastVote roomId participantId songId reqs st None = Some (d, t) ->
        exists room,
          rooms (run (Req ∘ voteRequest <$> reqs) st) !! roomId = Some room
          /\ oneVotePerPair room
          /\ stored room (mkVote participantId songId d t)
          /\ forall v, stored room v ->
               v_participantId v = participantId -> v_songId v = songId ->
               v = mkVote participantId songId d t)
  /\ (forall st roomId room participantId songId vote now,
        rooms st !! roomId = Some room ->
        is_Some (r_participants room !! participantId) ->
        is_Some (parseVote vote) ->
        isFailure (castVote roomId participantId songId vote now st).2 = false).
Proof.
  split_and!.
  - intros st roomId room Hst Hroom.
    apply ledgerOk_oneVotePerPair. by apply (reachable_storeOk st Hst roomId).
  - intros st reqs roomId pid songId d t Hst Hlast.
    destruct (lastVote_onlyVote roomId pid songId reqs st None
                (reachable_storeOk st Hst) ltac:(done) d t Hlast)
      as (room & Hroom & Hstored & Honly).
    exists room. split_and!; try done.
    apply ledgerOk_oneVotePerPair.
    by apply (reachable_storeOk _ (reachable_run (Req ∘ voteRequest <$> reqs) st Hst)
                roomId).
  - intros st roomId room pid songId vote now Hroom Hp Hd.
    by eapply castVote_accepts.
Qed.

(** ** The life of a room *)

Ltac room_cases H :=
  unfold handle, createRoom, joinRoom, addSong, castVote, leaveRoom in *;
  repeat (case_match; simplify_eq/=); try done;
  try (rewrite lookup_insert in H; case_decide; simplify_eq/=).

Lemma step_from_absent st ev k room' :
  rooms st !! k = None -> rooms (exec st ev) !! k = Some room' -> createsAt k ev.
Proof.
  intros Hnone Hk. destruct ev as [req|now]; simpl in Hk.
  - destruct req; room_cases Hk; try congruence.
    unfold createsAt. eauto 10.
  - apply cleanup_rooms_Some in Hk. congruence.
Qed.

Lemma step_keeps_inactive st ev k room room' :
  rooms st !! k = Some room -> r_isActive room = false ->
  rooms (exec st ev) !! k = Some room' ->
  r_isActive room' = false \/ createsAt k ev.
Proof.
  intros Hroom Hact Hk. destruct ev as [req|now]; simpl in Hk.
  - destruct req; room_cases Hk; try (left; congruence).
    right. unfold createsAt. eauto 10.
  - apply cleanup_rooms_Some in Hk. left. congruence.
Qed.

Lemma run_keeps_inactive evs :
  forall st k room',
    (rooms st !! k = None
     \/ exists room, rooms st !! k = Some room /\ r_isActive room = false) ->
    rooms (run evs st) !! k = Some room' ->
    r_isActive room' = false \/ Exists (createsAt k) evs.
Proof.
  induction evs as [|ev evs IH]; intros st k room' Hst Hk; simpl in Hk.
  { destruct Hst as [Hnone|(room & Hroom & Hact)]; left; congruence. }
  assert (rooms (exec st ev) !! k = None
          \/ (exists room, rooms (exec st ev) !! k = Some room
                           /\ r_isActive room = false)
          \/ createsAt k ev) as [Hnone|[Hin|Hcr]].
  { destruct (rooms (exec st ev) !! k) as [room1|] eqn:Hk1; [|by left].
    right. destruct Hst as [Hnone|(room & Hroom & Hact)].
    - right. by eapply step_from_absent.
    - destruct (step_keeps_inactive st ev k room room1) as [?|?]; eauto. }
  - destruct (IH (exec st ev) k room' (or_introl Hnone) Hk) as [?|?]; [by left|].
    right. by apply Exists_cons_tl.
  - destruct (IH (exec st ev) k room' (or_intror Hin) Hk) as [?|?]; [by left|].
    right. by apply Exists_cons_tl.
  - right. by apply Exists_cons_hd.
Qed.

Lemma only_leave_deactivates req st k room room' :
  rooms st !! k = Some room -> r_isActive room = true ->
  rooms (handle req st).1 !! k = Some room' -> r_isActive room' = false ->
  exists pid, req = ReqLeave k pid
              /\ is_Some (r_participants room !! pid)
              /\ (pid = r_createdBy room
                  \/ delete pid (r_participants room) = ∅).
Proof.
  intros Hroom Hact Hk Hact'. destruct req; room_cases Hk; try congruence.
  eexists. split; [done|]. split; [by eexists|].
  match goal with H : _ || _ = true |- _ => rename H into Hor end.
  apply orb_true_iff in Hor as [Hsz|Hcr].
  - right. apply bool_decide_eq_true_1 in Hsz. by apply map_size_empty_iff.
  - left. by apply bool_decide_eq_true_1 in Hcr.
Qed.

Lemma leaveRoom_isActive roomId pid st room :
  rooms st !! roomId = Some room -> is_Some (r_participants room !! pid) ->
  exists room',
    leaveRoom roomId pid st
    = (mkStore (<[roomId := room']> (rooms st)) (delete pid (participantRooms st)),
       Success Left)
    /\ r_participants room' = delete pid (r_participants room)
    /\ (r_isActive room' = false
        <-> r_isActive room = false \/ pid = r_createdBy room
            \/ r_participants room' = ∅).
Proof.
  intros Hroom [p Hp]. unfold leaveRoom. rewrite Hroom, Hp.
  eexists. split; [done|]. simpl. split; [done|].
  rewrite <- map_size_empty_iff.
  destruct (bool_decide (size _ = 0%nat)) eqn:Hsz; simpl.
  - apply bool_decide_eq_true_1 in Hsz. tauto.
  - apply bool_decide_eq_false_1 in Hsz.
    destruct (bool_decide (pid = _)) eqn:Hcr.
    + apply bool_decide_eq_true_1 in Hcr. tauto.
    + apply bool_decide_eq_false_1 in Hcr. tauto.
Qed.

Lemma createRoom_stores name creatorName creatorAvatar roomId participantId
    joinedAt createdAt st :
  falsy name = false -> falsy creatorName = false ->
  createRoom name creatorName creatorAvatar roomId participantId joinedAt createdAt st
  = (mkStore
       (<[roomId := newRoom name creatorName creatorAvatar roomId participantId
                            joinedAt createdAt]> (rooms st))
       (<[participantId := roomId]> (participantRooms st)),
     Success
       (Created roomId participantId
          (mkRoomView roomId (text name)
             (participantList
                {[ participantId :=
                     mkParticipant participantId (text creatorName) creatorAvatar
                                   joinedAt ]})
             [] None true))).
Proof. intros Hn Hc. unfold createRoom. by rewrite Hn, Hc. Qed.

(** C4: a room is active when it is created; a leave that succeeds leaves
    the room inactive exactly when it was inactive already, or the leaving
    participant is the creator, or no participant remains; nothing but such
    a leave turns an active room inactive; and a room that is inactive is
    never active again: under the same code there is later an inactive
    room, or no room, unless a create request drew that code again and
    stored a newly built room under it. *)
Theorem isActive_lifecycle :
  (forall name creatorName creatorAvatar roomId participantId joinedAt createdAt st,
      falsy name = false -> falsy creatorName = false ->
      exists room,
        rooms (createRoom name creatorName creatorAvatar roomId participantId
                          joinedAt createdAt st).1 !! roomId = Some room
        /\ room = newRoom name creatorName creatorAvatar roomId participantId
                          joinedAt createdAt
        /\ r_isActive room = true)
  /\ (forall roomId participantId st room,
        rooms st !! roomId = Some room ->
        is_Some (r_participants room !! participantId) ->
        exists room',
          (leaveRoom roomId participantId st).2 = Success Left
          /\ rooms (leaveRoom roomId participantId st).1 !! roomId = Some room'
          /\ r_participants room' = delete participantId (r_participants room)
          /\ (r_isActive room' = false
              <-> r_isActive room = false \/ participantId = r_createdBy room
                  \/ r_participants room' = ∅))
  /\ (forall ev st roomId room room',
        rooms st !! roomId = Some room -> r_isActive room = true ->
        rooms (exec st ev) !! roomId = Some room' -> r_isActive room' = false ->
        exists participantId,
          ev = Req (ReqLeave roomId participantId)
          /\ is_Some (r_participants room !! participantId)
          /\ (participantId = r_createdBy room
              \/ delete participantId (r_participants room) = ∅))
  /\ (forall evs st roomId room room',
        rooms st !! roomId = Some room -> r_isActive room = false ->
        rooms (run evs st) !! roomId = Some room' ->
        r_isActive room' = false \/ Exists (createsAt roomId) evs).
Proof.
  split_and!.
  - intros name cn av roomId pid t1 t2 st Hn Hc.
    rewrite (createRoom_stores _ _ _ _ _ _ _ _ Hn Hc); simpl.
    eexists. by rewrite lookup_insert_eq.
  - intros roomId pid st room Hroom Hp.
    destruct (leaveRoom_isActive roomId pid st room Hroom Hp)
      as (room' & -> & Hps & Hact).
    exists room'; simpl. by rewrite lookup_insert_eq.
  - intros ev st roomId room room' Hroom Hact Hk Hact'.
    destruct ev as [req|now]; simpl in Hk.
    + destruct (only_leave_deactivates req st roomId room room')
        as (pid & -> & ?); eauto.
    + apply cleanup_rooms_Some in Hk. congruence.
  - intros evs st roomId room room' Hroom Hact Hk.
    eapply run_keeps_inactive; [|exact Hk]. right. eauto.
Qed.

(** ** Room codes *)

(** Against C5 as stated: a second create request for which the same code
    is generated is answered with that code; the room stored under it is
    the new one, and the first room is stored no more although the index
    still sends its creator to the code. *)
Lemma createRoom_overwrites_on_collision :
  let st1 := (createRoom (Some "Party"%string) (Some "Alice"%string) None
                         "ABC123" "alice" 10 11 emptyStore).1 in
  let res := createRoom (Some "Other"%string) (Some "Bob"%string) None
                        "ABC123" "bob" 20 21 st1 in
  (r_createdBy <$> rooms st1 !! "ABC123"%string) = Some "alice"%string
  /\ (exists view, res.2 = Success (Created "ABC123" "bob" view))
  /\ (r_createdBy <$> rooms res.1 !! "ABC123"%string) = Some "bob"%string
  /\ size (rooms res.1) = 1%nat
  /\ participantRooms res.1 !! "alice"%string = Some "ABC123"%string.
Proof. split_and!; try reflexivity. eexists. reflexivity. Qed.

(** C5, amended: in every reachable state a room is stored under its own
    code, so rooms stored under two codes have different codes; a create
    request with both names answers with the code generated for it and
    stores the new room under that code without looking the code up: the
    rooms stored under other codes stay as they are, and a room stored
    under the same code is replaced. *)
Theorem createRoom_stores_under_generated_code :
  (forall st roomId room,
      reachable st -> rooms st !! roomId = Some room -> r_id room = roomId)
  /\ (forall st k1 k2 room1 room2,
        reachable st -> rooms st !! k1 = Some room1 -> rooms st !! k2 = Some room2 ->
        k1 <> k2 -> r_id room1 <> r_id room2)
  /\ (forall name creatorName creatorAvatar roomId participantId joinedAt createdAt st,
        falsy name = false -> falsy creatorName = false ->
        let res := createRoom name creatorName creatorAvatar roomId participantId
                              joinedAt createdAt st in
        (exists view, res.2 = Success (Created roomId participantId view))
        /\ rooms res.1 !! roomId
           = Some (newRoom name creatorName creatorAvatar roomId participantId
                           joinedAt createdAt)
        /\ forall k, k <> roomId -> rooms res.1 !! k = rooms st !! k).
Proof.
  split_and!.
  - intros st roomId room Hst Hroom. by apply (reachable_storeOk st Hst roomId).
  - intros st k1 k2 room1 room2 Hst H1 H2 Hne.
    destruct (reachable_storeOk st Hst k1 room1 H1) as [-> _].
    destruct (reachable_storeOk st Hst k2 room2 H2) as [-> _]. done.
  - intros name cn av roomId pid t1 t2 st Hn Hc res. subst res.
    rewrite (createRoom_stores _ _ _ _ _ _ _ _ Hn Hc); simpl. split_and!.
    + by eexists.
    + by rewrite lookup_insert_eq.
    + intros k Hk. by rewrite lookup_insert_ne.
Qed.

(** ** Keys of the votes mapping *)

Ltac not_a_vote :=
  match goal with
  | |- ?A \/ _ \/ ?C => cut (A \/ C); [intros [?|?]; [by left|by right; right]|]
  end.

Lemma votes_key_step st ev roomId room' k :
  rooms (exec st ev) !! roomId = Some room' -> is_Some (r_votes room' !! k) ->
  (exists s, s ∈ r_queue room' /\ s_id s = k)
  \/ (exists pid vote now,
        ev = Req (ReqVote roomId pid k vote now)
        /\ isFailure (handle (ReqVote roomId pid k vote now) st).2 = false)
  \/ (exists room,
        rooms st !! roomId = Some room /\ is_Some (r_votes room !! k)
        /\ forall s, s ∈ r_queue room -> s ∈ r_queue room').
Proof.
  intros Hk Hkey. destruct ev as [req|now]; simpl in Hk.
  - destruct req as [name cn av rid pid t1 t2 | rid name av pid now
                    | rid pid song sid now | rid pid sid vote now | rid pid].
    + not_a_vote. room_cases Hk; try (right; eauto 10; fail).
      rewrite lookup_empty in Hkey. by destruct Hkey.
    + not_a_vote. room_cases Hk; right; eauto 10.
    + not_a_vote. room_cases Hk; try (right; eauto 10; fail).
      destruct (decide (sid = k)) as [->|Hne].
      * left. eexists.
        split; [apply elem_of_app; right; by apply list_elem_of_singleton|].
        reflexivity.
      * rewrite lookup_insert_ne in Hkey by done. right.
        eexists. split_and!; [done..|]. intros s' Hs. apply elem_of_app. by left.
    + destruct (isFailure (handle (ReqVote rid pid sid vote now) st).2) eqn:Hfail.
      { rewrite (handle_failure _ _ Hfail) in Hk. right; right; eauto 10. }
      pose proof Hfail as Hok. simpl in Hok.
      apply castVote_success in Hok as (d & room & _ & Hroom & _ & Hst).
      simpl in Hk. rewrite Hst in Hk. simpl in Hk.
      rewrite lookup_insert in Hk. case_decide; simplify_eq/=.
      * destruct (decide (sid = k)) as [->|Hne].
        -- right; left. eauto.
        -- rewrite lookup_insert_ne in Hkey by done. right; right; eauto 10.
      * right; right; eauto 10.
    + not_a_vote. room_cases Hk; try (right; eauto 10; fail);
        rewrite lookup_fmap in Hkey; apply fmap_is_Some in Hkey;
        right; eauto 10.
  - apply cleanup_rooms_Some in Hk. right; right; eauto 10.
Qed.

(** C6, amended: in every state the server reaches, a song id that is a
    key of the votes mapping of a room is the id of a song of the queue of
    that room, put there by an add-song request, or the song id of a vote
    request for that room that was accepted: the vote handler does not look
    the song id up in the queue. *)
Theorem votes_keys_are_added_or_voted (evs : list Event) :
  forall roomId room k,
    rooms (run evs emptyStore) !! roomId = Some room ->
    is_Some (r_votes room !! k) ->
    (exists s, s ∈ r_queue room /\ s_id s = k)
    \/ (exists evs1 evs2 participantId vote now,
          evs = evs1 ++ Req (ReqVote roomId participantId k vote now) :: evs2
          /\ isFailure (handle (ReqVote roomId participantId k vote now)
                               (run evs1 emptyStore)).2 = false).
Proof.
  induction evs as [|ev evs IH] using rev_ind; intros roomId room k Hroom Hkey.
  { simpl in Hroom. by rewrite lookup_empty in Hroom. }
  rewrite run_snoc in Hroom.
  destruct (votes_key_step _ _ _ _ _ Hroom Hkey)
    as [Hq|[(pid & vote & now & -> & Hok)|(room0 & Hroom0 & Hkey0 & Hqueue)]].
  - by left.
  - right. exists evs, [], pid, vote, now. done.
  - destruct (IH roomId room0 k Hroom0 Hkey0)
      as [(s & Hs & Hid)|(evs1 & evs2 & pid & vote & now & -> & Hok)].
    + left. exists s. split; [by apply Hqueue|done].
    + right. exists evs1, (evs2 ++ [ev]), pid, vote, now.
      split; [|done]. by rewrite <- app_assoc.
Qed.

(** Against C6 as stated: a participant votes on a song id that no
    add-song request ever produced; the vote is accepted and the id becomes
    a key of the votes mapping of the room, whose queue is empty. *)
Lemma castVote_adds_unknown_song_key :
  let st := run [Req (ReqCreate (Some "Party"%string) (Some "Alice"%string) None
                                "ABC123" "alice" 10 11);
                 Req (ReqVote "ABC123" "alice" "ghost" "up" 20)] emptyStore in
  exists room,
    rooms st !! "ABC123"%string = Some room
    /\ r_queue room = []
    /\ r_votes room !! "ghost"%string = Some [mkVote "alice" "ghost" up 20].
Proof. eexists. split_and!; reflexivity. Qed.

(** ** The theorems on the sample runs *)

Lemma reachable_twoStore : reachable twoStore.
Proof. apply reachable_run. constructor. Qed.

Lemma reachable_demoStore : reachable demoStore.
Proof. apply reachable_run. constructor. Qed.

(** Bob's vote on the second song after he changed it is the down vote of
    time 90 and nothing else. *)
Lemma castVote_last_write_wins_witness :
  exists room,
    rooms (run (Req ∘ voteRequest <$> demoVotes) demoStore) !! "ABC123"%string
    = Some room
    /\ oneVotePerPair room
    /\ stored room (mkVote "bob" "songB" down 90)
    /\ forall v, stored room v ->
         v_participantId v = "bob"%string -> v_songId v = "songB"%string ->
         v = mkVote "bob" "songB" down 90.
Proof.
  destruct castVote_last_write_wins as (_ & Hlast & _).
  apply (Hlast demoStore demoVotes "ABC123"%string "bob"%string "songB"%string
               down 90).
  - exact reachable_demoStore.
  - reflexivity.
Defined.

(** The creator leaves while Bob stays: the room is no longer active. *)
Lemma isActive_lifecycle_witness :
  exists room room',
    rooms twoStore !! "ABC123"%string = Some room
    /\ (leaveRoom "ABC123" "alice" twoStore).2 = Success Left
    /\ rooms (leaveRoom "ABC123" "alice" twoStore).1 !! "ABC123"%string = Some room'
    /\ r_participants room' = delete "alice"%string (r_participants room)
    /\ (r_isActive room' = false
        <-> r_isActive room = false \/ "alice"%string = r_createdBy room
            \/ r_participants room' = ∅).
Proof.
  destruct isActive_lifecycle as (_ & Hleave & _).
  eexists.
  destruct (Hleave "ABC123"%string "alice"%string twoStore _ eq_refl)
    as (room' & H).
  - eexists. reflexivity.
  - exists room'. split; [reflexivity|exact H].
Defined.

(** A create request for which a code not in use is generated leaves the
    room of the sample run as it is. *)
Lemma createRoom_stores_under_generated_code_witness :
  let res := createRoom (Some "Other"%string) (Some "Carol"%string) None
                        "XYZ789" "carol" 100 101 demoStore in
  (exists view, res.2 = Success (Created "XYZ789" "carol" view))
  /\ rooms res.1 !! "XYZ789"%string
     = Some (newRoom (Some "Other"%string) (Some "Carol"%string) None
                     "XYZ789" "carol" 100 101)
  /\ forall k, k <> "XYZ789"%string -> rooms res.1 !! k = rooms demoStore !! k.
Proof.
  destruct createRoom_stores_under_generated_code as (_ & _ & Hcreate).
  apply (Hcreate (Some "Other"%string) (Some "Carol"%string) None
                 "XYZ789"%string "carol"%string 100 101 demoStore);
    reflexivity.
Defined.

(** In the sample run the keys of the votes mapping are the two songs of
    the queue. *)
Lemma votes_keys_are_added_or_voted_witness :
  exists room,
    rooms (run demoEvents emptyStore) !! "ABC123"%string = Some room
    /\ ((exists s, s ∈ r_queue room /\ s_id s = "songB"%string)
        \/ (exists evs1 evs2 participantId vote now,
              demoEvents
              = evs1 ++ Req (ReqVote "ABC123" participantId "songB" vote now)
                        :: evs2
              /\ isFailure (handle (ReqVote "ABC123" participantId "songB" vote now)
                                   (run evs1 emptyStore)).2 = false)).
Proof.
  destruct (rooms (run demoEvents emptyStore) !! "ABC123"%string)
    as [room|] eqn:Hroom; [|vm_compute in Hroom; discriminate Hroom].
  exists room. split; [reflexivity|].
  apply (votes_keys_are_added_or_voted demoEvents "ABC123"%string room
           "songB"%string Hroom).
  vm_compute in Hroom. injection Hroom as <-. eexists. vm_compute. reflexivity.
Defined.

(** A room created 25 hours ago and still active is deleted with the index
    entry of its participant; the room created an hour ago stays. *)
Lemma cleanup_removes_exactly_expired_witness :
  rooms (cleanup 90000000 agedStore) !! "OLD000"%string = None
  /\ participantRooms (cleanup 90000000 agedStore) !! "alice"%string = None
  /\ rooms (cleanup 90000000 agedStore) !! "NEW000"%string
     = rooms agedStore !! "NEW000"%string.
Proof.
  destruct (cleanup_removes_exactly_expired 90000000 agedStore)
    as (Hiff & _ & Hindex & _).
  destruct (Hiff "OLD000"%string _ eq_refl) as [[_ Hold] _].
  destruct (Hiff "NEW000"%string _ eq_refl) as [[Hnew _] Hcase].
  assert (rooms (cleanup 90000000 agedStore) !! "OLD000"%string = None) as Hgone.
  { apply Hold. right. reflexivity. }
  split_and!.
  - exact Hgone.
  - eapply (Hindex "OLD000"%string _ "alice"%string eq_refl Hgone).
    eexists. reflexivity.
  - destruct Hcase as [Hnone|Hsame]; [|exact Hsame].
    destruct (Hnew Hnone) as [Hact|Hage]; [discriminate Hact|].
    vm_compute in Hage. discriminate Hage.
Defined.

(** * Further properties of the server *)

(** ** Ranking a queue that is in order *)

Section sort_in_order.
Context {A : Type} (key : A -> Z).

Lemma sort_insert_front x l :
  Forall (fun y => key y <= key x) l ->
  sort_insert (fun a b : A => key b - key a) x l = x :: l.
Proof.
  destruct 1 as [|y l Hy _]; simpl; [done|].
  destruct (Z.leb_spec (key y - key x) 0); [done|lia].
Qed.

Lemma array_sort_in_order l :
  StronglySorted (fun a b : A => key b <= key a) l ->
  array_sort (fun a b : A => key b - key a) l = l.
Proof.
  induction 1 as [|x l Hl IH Hx]; simpl; [done|].
  rewrite IH. by apply sort_insert_front.
Qed.

Lemma same_key_in_order l :
  (forall a b, a ∈ l -> b ∈ l -> key a = key b) ->
  StronglySorted (fun a b : A => key b <= key a) l.
Proof.
  induction l as [|x l IH]; intros Hsame; constructor.
  - apply IH. intros a b Ha Hb. apply Hsame; by apply list_elem_of_further.
  - apply Forall_forall. intros y Hy.
    rewrite (Hsame y x); [lia|by apply list_elem_of_further|by apply list_elem_of_here].
Qed.
End sort_in_order.

(** X1: a queue that is in descending order of score is ranked as it is. So
    ranking a ranked queue again changes nothing, and a queue whose songs
    all have the same score, as when nothing was voted yet, is ranked in
    the order the songs were added. *)
Theorem sortQueueByVotes_in_order :
  (forall queue votesMap,
      StronglySorted (scoreGe votesMap) queue ->
      sortQueueByVotes queue votesMap = queue)
  /\ (forall queue votesMap,
        sortQueueByVotes (sortQueueByVotes queue votesMap) votesMap
        = sortQueueByVotes queue votesMap)
  /\ (forall queue votesMap,
        (forall a b, a ∈ queue -> b ∈ queue ->
                     songScore votesMap a = songScore votesMap b) ->
        sortQueueByVotes queue votesMap = queue)
  /\ (forall queue, sortQueueByVotes queue ∅ = queue).
Proof.
  split_and!.
  - intros queue votesMap Hs. by apply (array_sort_in_order (songScore votesMap)).
  - intros queue votesMap. apply (array_sort_in_order (songScore votesMap)).
    apply (array_sort_sorted (songScore votesMap)).
  - intros queue votesMap Hsame.
    apply (array_sort_in_order (songScore votesMap)).
    by apply (same_key_in_order (songScore votesMap)).
  - intros queue. apply (array_sort_in_order (songScore ∅)).
    apply (same_key_in_order (songScore ∅)). intros a b _ _.
    unfold songScore, votesOf. by rewrite !lookup_empty.
Qed.

Lemma sortQueueByVotes_in_order_witness :
  let votesMap : gmap string (list Vote) :=
    {[ "songB"%string := [mkVote "alice" "songB" up 50] ]} in
  let queue := [mkSong "songB" "B" "Y" None 200 None "bob" 40;
                mkSong "songA" "A" "X" None 180 None "alice" 30] in
  sortQueueByVotes queue votesMap = queue.
Proof.
  intros votesMap queue.
  destruct sortQueueByVotes_in_order as (Hsorted & _).
  apply (Hsorted queue votesMap).
  repeat constructor; vm_compute; discriminate.
Defined.

(** ** What a vote does to the scores *)

Lemma calculateSongScore_app l1 l2 :
  calculateSongScore (l1 ++ l2) = calculateSongScore l1 + calculateSongScore l2.
Proof.
  unfold calculateSongScore. rewrite fold_left_app, !calculateSongScore_from.
  lia.
Qed.

Lemma calculateSongScore_cons v l :
  calculateSongScore (v :: l) = voteValue (v_vote v) + calculateSongScore l.
Proof.
  change (v :: l) with ([v] ++ l). rewrite calculateSongScore_app.
  assert (calculateSongScore [v] = voteValue (v_vote v)) as ->; [|done].
  unfold calculateSongScore, voteValue. simpl. by destruct (v_vote v).
Qed.

Lemma calculateSongScore_single v :
  calculateSongScore [v] = voteValue (v_vote v).
Proof. rewrite calculateSongScore_cons. unfold calculateSongScore. simpl. lia. Qed.

Lemma filter_all {A} (P : A -> Prop) `{!forall x, Decision (P x)} (l : list A) :
  Forall P l -> filter P l = l.
Proof.
  induction 1 as [|x l Hx _ IH]; [done|].
  rewrite filter_cons, decide_True by done. by f_equal.
Qed.

Lemma others_votes_all pid (l : list Vote) :
  pid ∉ v_participantId <$> l ->
  filter (fun v => v_participantId v <> pid) l = l.
Proof.
  intros Hnot. apply filter_all, Forall_forall. intros v Hv Heq.
  apply Hnot. rewrite <- Heq. by apply list_elem_of_fmap_2.
Qed.

Lemma dropVoteOf_filter pid l :
  NoDup (v_participantId <$> l) ->
  dropVoteOf pid l = filter (fun v => v_participantId v <> pid) l.
Proof.
  intros Hnd. unfold dropVoteOf, findIndex, splice1.
  destruct (list_find _ l) as [[i x]|] eqn:Hfind.
  - apply list_find_Some in Hfind as (Hi & Hx & _).
    rewrite Z.geb_leb.
    replace (0 <=? Z.of_nat i) with true by (symmetry; apply Z.leb_le; lia).
    rewrite Nat2Z.id, delete_take_drop.
    pose proof (take_drop_middle l i x Hi) as Hl.
    revert Hl. generalize (take i l) (drop (S i) l). intros l1 l2 <-.
    rewrite fmap_app, fmap_cons in Hnd.
    apply NoDup_app in Hnd as (_ & Hl1 & Hr). apply NoDup_cons in Hr as [Hr _].
    rewrite filter_app, filter_cons, decide_False by tauto.
    rewrite !others_votes_all; [done|by rewrite <- Hx|].
    intros Hin. apply (Hl1 _ Hin). rewrite Hx. by apply list_elem_of_here.
  - apply list_find_None in Hfind. simpl. symmetry. by apply filter_all.
Qed.

Lemma calculateSongScore_others pid l v0 :
  NoDup (v_participantId <$> l) -> v0 ∈ l -> v_participantId v0 = pid ->
  calculateSongScore l
  = calculateSongScore (filter (fun v => v_participantId v <> pid) l)
    + voteValue (v_vote v0).
Proof.
  induction l as [|x l IH]; intros Hnd Hin Hp; [by apply elem_of_nil in Hin|].
  apply NoDup_cons in Hnd as [Hx Hnd].
  rewrite filter_cons, calculateSongScore_cons.
  apply elem_of_cons in Hin as [->|Hin].
  - rewrite decide_False by tauto.
    rewrite others_votes_all; [lia|]. by rewrite <- Hp.
  - assert (v_participantId x <> pid) as Hne.
    { intros Heq. apply Hx. rewrite Heq, <- Hp. by apply list_elem_of_fmap_2. }
    rewrite decide_True by done.
    rewrite calculateSongScore_cons, (IH Hnd Hin Hp). lia.
Qed.

(** X2: an accepted vote leaves on the song the votes of the other
    participants followed by the new vote, so the score of the song becomes
    the score of the others' votes plus or minus one: a first vote moves the
    score by one, a repeated vote replaces the value of the prior one, and
    the votes of the other songs are as before. *)
Theorem castVote_score (st : Store) (roomId : string) (room : Room)
    (participantId songId vote : string) (d : Direction) (now : Z) :
  reachable st -> rooms st !! roomId = Some room ->
  is_Some (r_participants room !! participantId) -> parseVote vote = Some d ->
  exists room',
    rooms (castVote roomId participantId songId vote now st).1 !! roomId = Some room'
    /\ votesOf (r_votes room') songId
       = filter (fun v => v_participantId v <> participantId)
                (votesOf (r_votes room) songId)
         ++ [mkVote participantId songId d now]
    /\ (forall v0, v0 ∈ votesOf (r_votes room) songId ->
          v_participantId v0 = participantId ->
          calculateSongScore (votesOf (r_votes room') songId)
          = calculateSongScore (votesOf (r_votes room) songId)
            - voteValue (v_vote v0) + voteValue d)
    /\ ((forall v0, v0 ∈ votesOf (r_votes room) songId ->
           v_participantId v0 <> participantId) ->
        calculateSongScore (votesOf (r_votes room') songId)
        = calculateSongScore (votesOf (r_votes room) songId) + voteValue d)
    /\ (forall k, k <> songId ->
          votesOf (r_votes room') k = votesOf (r_votes room) k).
Proof.
  intros Hst Hroom Hp Hd.
  destruct (reachable_storeOk st Hst roomId room Hroom) as [_ Hledger].
  destruct (ledgerOk_votesOf _ songId Hledger) as [_ Hnd].
  pose proof (castVote_accepts roomId room participantId songId vote now st
                Hroom Hp (mk_is_Some _ _ Hd)) as Hok.
  apply castVote_success in Hok as (d' & room0 & Hd' & Hroom0 & _ & ->).
  rewrite Hroom in Hroom0. injection Hroom0 as <-.
  rewrite Hd in Hd'. injection Hd' as <-.
  eexists. simpl. rewrite lookup_insert_eq. split; [done|]. simpl.
  assert (votesOf (<[songId := dropVoteOf participantId (votesOf (r_votes room) songId)
                               ++ [mkVote participantId songId d now]]>
                     (r_votes room)) songId
          = filter (fun v => v_participantId v <> participantId)
                   (votesOf (r_votes room) songId)
            ++ [mkVote participantId songId d now]) as Hnew.
  { unfold votesOf at 1. rewrite lookup_insert_eq. simpl.
    by rewrite dropVoteOf_filter. }
  rewrite Hnew. split_and!.
  - done.
  - intros v0 Hv0 Hp0. rewrite calculateSongScore_app, calculateSongScore_single.
    rewrite (calculateSongScore_others participantId _ v0 Hnd Hv0 Hp0).
    simpl. lia.
  - intros Hnone. rewrite calculateSongScore_app, calculateSongScore_single.
    rewrite filter_all; [done|]. by apply Forall_forall.
  - intros k Hk. unfold votesOf. by rewrite lookup_insert_ne.
Qed.

(** Bob turns his up vote on the second song into a down vote: the score
    goes from 2 to 0. *)
Lemma castVote_score_witness :
  exists room room',
    rooms demoStore !! "ABC123"%string = Some room
    /\ rooms (castVote "ABC123" "bob" "songB" "down" 90 demoStore).1
         !! "ABC123"%string = Some room'
    /\ calculateSongScore (votesOf (r_votes room) "songB") = 2
    /\ calculateSongScore (votesOf (r_votes room') "songB") = 0.
Proof.
  destruct (rooms demoStore !! "ABC123"%string) as [room|] eqn:Hroom;
    [|vm_compute in Hroom; discriminate Hroom].
  destruct (castVote_score demoStore "ABC123" room "bob" "songB" "down" down 90)
    as (room' & Hroom' & _ & Hrepeat & _).
  - exact reachable_demoStore.
  - exact Hroom.
  - vm_compute in Hroom. injection Hroom as <-. eexists. vm_compute. reflexivity.
  - reflexivity.
  - exists room, room'. split; [reflexivity|]. split; [exact Hroom'|].
    assert (calculateSongScore (votesOf (r_votes room) "songB") = 2) as Hold.
    { vm_compute in Hroom. injection Hroom as <-. reflexivity. }
    split; [exact Hold|].
    rewrite (Hrepeat (mkVote "bob" "songB" up 60)).
    + rewrite Hold. reflexivity.
    + vm_compute in Hroom. injection Hroom as <-. vm_compute.
      apply list_elem_of_further, list_elem_of_here.
    + reflexivity.
Defined.

(** ** What every reachable room satisfies *)

Lemma stored_insert room k l v :
  stored (withVotes room (<[k := l]> (r_votes room))) v ->
  v ∈ l \/ stored room v.
Proof.
  intros (k' & l' & Hk & Hv); simpl in Hk.
  destruct (decide (k = k')) as [->|Hne].
  - rewrite lookup_insert_eq in Hk. simplify_eq. by left.
  - rewrite lookup_insert_ne in Hk by done. right. by exists k', l'.
Qed.

Lemma storeInv_handle req st : storeOk st -> storeInv st -> storeInv (handle req st).1.
Proof.
  intros Hok Hinv.
  destruct (isFailure (handle req st).2) eqn:Hfail.
  { by rewrite handle_failure. }
  destruct req as [name cn av rid pid t1 t2 | rid name av pid now
                  | rid pid song sid now | rid pid sid vote now | rid pid].
  - unfold handle, createRoom in *. destruct (falsy name || falsy cn); [done|].
    intros k room Hk; simpl in Hk. destruct (decide (rid = k)) as [->|Hne].
    + rewrite lookup_insert_eq in Hk. simplify_eq. split; simpl.
      * done.
      * by intros s ?%elem_of_nil.
      * intros v (k' & l & Hl & _); simpl in Hl. by rewrite lookup_empty in Hl.
      * intros _. rewrite lookup_singleton_eq. by eexists.
    + rewrite lookup_insert_ne in Hk by done. by apply (Hinv k).
  - unfold handle, joinRoom in *. destruct (falsy name); [done|].
    destruct (rooms st !! rid) as [room0|] eqn:Hroom; [|done].
    destruct (r_isActive room0) eqn:Hact; [|done]. simpl.
    intros k room Hk; simpl in Hk. destruct (decide (rid = k)) as [->|Hne].
    + rewrite lookup_insert_eq in Hk. simplify_eq.
      destruct (Hinv k room0 Hroom) as [Hc Hq Hv Hcr]. split; simpl.
      * done.
      * done.
      * intros v Hst. apply lookup_insert_is_Some'. right. by apply Hv.
      * intros _. apply lookup_insert_is_Some'. right. by apply Hcr.
    + rewrite lookup_insert_ne in Hk by done. by apply (Hinv k).
  - unfold handle, addSong in *.
    destruct (rooms st !! rid) as [room0|] eqn:Hroom; [|done].
    destruct (bool_decide _); [|done]. destruct song as [song|]; [|done]. simpl.
    intros k room Hk; simpl in Hk. destruct (decide (rid = k)) as [->|Hne].
    + rewrite lookup_insert_eq in Hk. simplify_eq.
      destruct (Hinv k room0 Hroom) as [Hc Hq Hv Hcr]. split; simpl.
      * done.
      * intros s [Hs|Hs%list_elem_of_singleton]%elem_of_app;
          apply lookup_insert_is_Some'; [right; by apply Hq|left; by subst].
      * intros v [Hin|Hst]%(stored_insert room0); [by apply elem_of_nil in Hin|].
        by apply Hv.
      * done.
    + rewrite lookup_insert_ne in Hk by done. by apply (Hinv k).
  - simpl in *. apply castVote_success in Hfail as (d & room0 & _ & Hroom & Hp & ->).
    intros k room Hk; simpl in Hk. destruct (decide (rid = k)) as [->|Hne].
    + rewrite lookup_insert_eq in Hk. simplify_eq.
      destruct (Hinv k room0 Hroom) as [Hc Hq Hv Hcr].
      destruct (Hok k room0 Hroom) as [_ Hledger]. split; simpl.
      * done.
      * intros s Hs. apply lookup_insert_is_Some'. right. by apply Hq.
      * intros v [->|[Hst _]]%castVote_stored; [done| |done]. by apply Hv.
      * done.
    + rewrite lookup_insert_ne in Hk by done. by apply (Hinv k).
  - unfold handle, leaveRoom in *.
    destruct (rooms st !! rid) as [room0|] eqn:Hroom; [|done].
    destruct (r_participants room0 !! pid) eqn:Hp; [|done]. simpl.
    intros k room Hk; simpl in Hk. destruct (decide (rid = k)) as [->|Hne].
    + rewrite lookup_insert_eq in Hk. simplify_eq.
      destruct (Hinv k room0 Hroom) as [Hc Hq Hv Hcr]. split; simpl.
      * done.
      * intros s Hs. rewrite lookup_fmap. apply fmap_is_Some. by apply Hq.
      * intros v (k' & l & Hl & Hin); simpl in Hl.
        apply lookup_fmap_Some in Hl as (l0 & <- & Hl0).
        apply list_elem_of_filter in Hin as [Hne Hin].
        rewrite lookup_delete_ne by done. apply Hv. by exists k', l0.
      * destruct (bool_decide (size _ = 0%nat)); simpl; [done|].
        case_bool_decide as Hcreator; [done|]. intros Hact.
        rewrite lookup_delete_ne by done. by apply Hcr.
    + rewrite lookup_insert_ne in Hk by done. by apply (Hinv k).
Qed.

Lemma reachable_storeInv st : reachable st -> storeInv st.
Proof.
  induction 1 as [|st ev Hst IH].
  - intros k room Hk. simpl in Hk. by rewrite lookup_empty in Hk.
  - destruct ev as [req|now]; simpl.
    + apply storeInv_handle; [by apply reachable_storeOk|done].
    + intros k room Hk. apply (IH k). by eapply cleanup_rooms_Some.
Qed.

(** X3: no request and no sweep sets the song that is playing: in every
    reachable state the current song of every stored room is absent. *)
Theorem currentSong_never_set (st : Store) (roomId : string) (room : Room) :
  reachable st -> rooms st !! roomId = Some room -> r_currentSong room = None.
Proof. intros Hst Hroom. by destruct (reachable_storeInv st Hst roomId room Hroom). Qed.

Lemma currentSong_never_set_witness :
  exists room,
    rooms demoStore !! "ABC123"%string = Some room /\ r_currentSong room = None.
Proof.
  destruct (rooms demoStore !! "ABC123"%string) as [room|] eqn:Hroom;
    [|vm_compute in Hroom; discriminate Hroom].
  exists room. split; [reflexivity|].
  exact (currentSong_never_set demoStore "ABC123" room reachable_demoStore Hroom).
Defined.

(** X4: in every reachable state every song of the queue of a room has an
    entry in the votes mapping of the room, so ranking never falls back on
    the empty list for a missing entry. *)
Theorem queue_songs_have_votes_entry (st : Store) (roomId : string) (room : Room)
    (s : Song) :
  reachable st -> rooms st !! roomId = Some room -> s ∈ r_queue room ->
  exists votes, r_votes room !! s_id s = Some votes
                /\ songScore (r_votes room) s = calculateSongScore votes.
Proof.
  intros Hst Hroom Hs.
  destruct (reachable_storeInv st Hst roomId room Hroom) as [_ Hq _ _].
  destruct (Hq s Hs) as [votes Hvotes]. exists votes. split; [done|].
  unfold songScore, votesOf. by rewrite Hvotes.
Qed.

Lemma queue_songs_have_votes_entry_witness :
  exists room votes,
    rooms demoStore !! "ABC123"%string = Some room
    /\ r_votes room !! "songA"%string = Some votes
    /\ songScore (r_votes room) (mkSong "songA" "A" "X" None 180 None "alice" 30)
       = calculateSongScore votes.
Proof.
  destruct (rooms demoStore !! "ABC123"%string) as [room|] eqn:Hroom;
    [|vm_compute in Hroom; discriminate Hroom].
  destruct (queue_songs_have_votes_entry demoStore "ABC123" room
              (mkSong "songA" "A" "X" None 180 None "alice" 30)
              reachable_demoStore Hroom) as (votes & Hvotes & Hscore).
  - vm_compute in Hroom. injection Hroom as <-. apply list_elem_of_here.
  - exists room, votes. split; [reflexivity|]. split; [exact Hvotes|exact Hscore].
Defined.

(** X5: in every reachable state every vote stored in a room is the vote
    of a participant who is in the room. *)
Theorem votes_are_by_participants (st : Store) (roomId : string) (room : Room)
    (v : Vote) :
  reachable st -> rooms st !! roomId = Some room -> stored room v ->
  is_Some (r_participants room !! v_participantId v).
Proof.
  intros Hst Hroom Hv.
  destruct (reachable_storeInv st Hst roomId room Hroom) as [_ _ Hvoters _].
  by apply Hvoters.
Qed.

Lemma votes_are_by_participants_witness :
  exists room,
    rooms demoStore !! "ABC123"%string = Some room
    /\ is_Some (r_participants room !! "bob"%string).
Proof.
  destruct (rooms demoStore !! "ABC123"%string) as [room|] eqn:Hroom;
    [|vm_compute in Hroom; discriminate Hroom].
  exists room. split; [reflexivity|].
  apply (votes_are_by_participants demoStore "ABC123" room
           (mkVote "bob" "songB" up 60) reachable_demoStore Hroom).
  vm_compute in Hroom. injection Hroom as <-.
  exists "songB"%string, [mkVote "alice" "songB" up 50; mkVote "bob" "songB" up 60].
  split; [reflexivity|]. apply list_elem_of_further, list_elem_of_here.
Defined.

(** X6: in every reachable state the creator of an active room is one of
    its participants. So a leave can only empty an active room when it is
    the creator who leaves, and a leave from an active room deactivates it
    exactly when the creator leaves: the emptiness test of the leave
    handler decides nothing that the creator test does not. *)
Theorem active_room_has_creator (st : Store) (roomId : string) (room : Room) :
  reachable st -> rooms st !! roomId = Some room -> r_isActive room = true ->
  is_Some (r_participants room !! r_createdBy room)
  /\ (forall participantId,
        delete participantId (r_participants room) = ∅ ->
        participantId = r_createdBy room)
  /\ (forall participantId,
        is_Some (r_participants room !! participantId) ->
        exists room',
          rooms (leaveRoom roomId participantId st).1 !! roomId = Some room'
          /\ (r_isActive room' = false <-> participantId = r_createdBy room)).
Proof.
  intros Hst Hroom Hact.
  destruct (reachable_storeInv st Hst roomId room Hroom) as [_ _ _ Hcr].
  specialize (Hcr Hact).
  assert (forall pid, delete pid (r_participants room) = ∅ ->
                      pid = r_createdBy room) as Hlast.
  { intros pid Hempty.
    destruct (decide (pid = r_createdBy room)) as [|Hne]; [done|].
    exfalso. destruct Hcr as [p Hp].
    assert (delete pid (r_participants room) !! r_createdBy room = Some p) as Hin
      by by rewrite lookup_delete_ne.
    rewrite Hempty, lookup_empty in Hin. done. }
  split_and!; [done..|].
  intros pid Hp.
  destruct (leaveRoom_isActive roomId pid st room Hroom Hp)
    as (room' & -> & Hps & Hiff).
  exists room'; simpl. rewrite lookup_insert_eq. split; [done|].
  rewrite Hiff, Hps, Hact. split.
  - intros [?|[?|?]]; [done|done|by apply Hlast].
  - intros ->. right. by left.
Qed.

Lemma active_room_has_creator_witness :
  exists room,
    rooms demoStore !! "ABC123"%string = Some room
    /\ is_Some (r_participants room !! r_createdBy room).
Proof.
  destruct (rooms demoStore !! "ABC123"%string) as [room|] eqn:Hroom;
    [|vm_compute in Hroom; discriminate Hroom].
  exists room. split; [reflexivity|].
  apply (active_room_has_creator demoStore "ABC123" room reachable_demoStore Hroom).
  vm_compute in Hroom. injection Hroom as <-. reflexivity.
Defined.

Lemma calculateSongScore_bound (l : list Vote) :
  - Z.of_nat (length l) <= calculateSongScore l <= Z.of_nat (length l).
Proof.
  induction l as [|v l IH]; [done|].
  rewrite calculateSongScore_cons. unfold voteValue.
  destruct (v_vote v); simpl length; lia.
Qed.

(** X7: in every reachable state the score of a song lies between minus
    the number of participants of the room and that number: a participant
    counts once, and only while in the room. *)
Theorem score_bounded_by_participants (st : Store) (roomId : string) (room : Room)
    (songId : string) :
  reachable st -> rooms st !! roomId = Some room ->
  - Z.of_nat (size (r_participants room))
  <= calculateSongScore (votesOf (r_votes room) songId)
  <= Z.of_nat (size (r_participants room)).
Proof.
  intros Hst Hroom.
  destruct (reachable_storeInv st Hst roomId room Hroom) as [_ _ Hvoters _].
  destruct (reachable_storeOk st Hst roomId room Hroom) as [_ Hledger].
  destruct (ledgerOk_votesOf _ songId Hledger) as [_ Hnd].
  pose proof (calculateSongScore_bound (votesOf (r_votes room) songId)) as Hb.
  assert (length (votesOf (r_votes room) songId) ≤ size (r_participants room))%nat
    as Hlen; [|lia].
  rewrite <- (length_fmap v_participantId), <- size_dom.
  rewrite <- (size_list_to_set (C := gset string)) by done.
  apply subseteq_size. intros p Hp.
  apply elem_of_list_to_set, list_elem_of_fmap in Hp as (v & -> & Hv).
  apply elem_of_dom, Hvoters.
  apply votesOf_elem in Hv as (l & Hl & Hv). by exists songId, l.
Qed.

Lemma score_bounded_by_participants_witness :
  exists room,
    rooms demoStore !! "ABC123"%string = Some room
    /\ - Z.of_nat (size (r_participants room))
       <= calculateSongScore (votesOf (r_votes room) "songB")
       <= Z.of_nat (size (r_participants room)).
Proof.
  destruct (rooms demoStore !! "ABC123"%string) as [room|] eqn:Hroom;
    [|vm_compute in Hroom; discriminate Hroom].
  exists room. split; [reflexivity|].
  exact (score_bounded_by_participants demoStore "ABC123" room "songB"
           reachable_demoStore Hroom).
Defined.

(** ** What stays of a room *)

Lemma run_from_absent evs :
  forall st k room',
    rooms st !! k = None -> rooms (run evs st) !! k = Some room' ->
    Exists (createsAt k) evs.
Proof.
  induction evs as [|ev evs IH]; intros st k room' Hnone Hk; simpl in Hk.
  { congruence. }
  destruct (rooms (exec st ev) !! k) as [room1|] eqn:Hk1.
  - apply Exists_cons_hd. by eapply step_from_absent.
  - apply Exists_cons_tl. by eapply IH.
Qed.

Section room_relation.
Context (R : Room -> Room -> Prop).
Context (R_refl : forall room, R room room).
Context (R_trans : forall a b c, R a b -> R b c -> R a c).
Context (R_step : forall st ev k room room',
            rooms st !! k = Some room -> rooms (exec st ev) !! k = Some room' ->
            ~ createsAt k ev -> R room room').

Lemma run_room_relation evs :
  forall st k room room',
    rooms st !! k = Some room -> rooms (run evs st) !! k = Some room' ->
    Forall (fun ev => ~ createsAt k ev) evs -> R room room'.
Proof using All.
  induction evs as [|ev evs IH]; intros st k room room' Hroom Hk Hevs;
    simpl in Hk.
  { simplify_eq. apply R_refl. }
  apply Forall_cons in Hevs as [Hev Hevs].
  destruct (rooms (exec st ev) !! k) as [room1|] eqn:Hk1.
  - eapply R_trans; [by eapply R_step|by eapply IH].
  - apply (run_from_absent evs _ _ _ Hk1) in Hk.
    apply Exists_exists in Hk as (ev' & Hin & Hcr).
    rewrite Forall_forall in Hevs. by destruct (Hevs ev' Hin).
Qed.
End room_relation.

Lemma extends_refl room : extends room room.
Proof. by repeat split. Qed.

Lemma extends_trans a b c : extends a b -> extends b c -> extends a c.
Proof.
  intros (? & ? & ? & ? & Hq1 & Hv1) (? & ? & ? & ? & Hq2 & Hv2).
  repeat split; try congruence; [by etrans|auto].
Qed.

Lemma extends_step st ev k room room' :
  rooms st !! k = Some room -> rooms (exec st ev) !! k = Some room' ->
  ~ createsAt k ev -> extends room room'.
Proof.
  intros Hroom Hk Hnc. destruct ev as [req|now]; simpl in Hk.
  - destruct req; room_cases Hk; try apply extends_refl;
      try (destruct Hnc; unfold createsAt; eauto 10; fail);
      repeat split; simpl; try done; try (by apply prefix_app_r);
      intros k' Hk';
      first [ apply lookup_insert_is_Some'; by right
            | rewrite lookup_fmap; by apply fmap_is_Some ].
  - apply cleanup_rooms_Some in Hk. simplify_eq. apply extends_refl.
Qed.

(** X8: as long as a room is stored under its code, and no create request
    draws the code again, its id, name, creator and creation time stay as
    they are, the songs of its queue stay in their order with new songs
    coming only at the end, and no key of its votes mapping is removed: no
    request removes a song. *)
Theorem room_only_grows (evs : list Event) (st : Store) (roomId : string)
    (room room' : Room) :
  rooms st !! roomId = Some room -> rooms (run evs st) !! roomId = Some room' ->
  Forall (fun ev => ~ createsAt roomId ev) evs ->
  r_id room' = r_id room /\ r_name room' = r_name room
  /\ r_createdBy room' = r_createdBy room /\ r_createdAt room' = r_createdAt room
  /\ r_queue room `prefix_of` r_queue room'
  /\ (forall k, is_Some (r_votes room !! k) -> is_Some (r_votes room' !! k)).
Proof.
  intros Hroom Hk Hevs.
  by apply (run_room_relation extends extends_refl extends_trans extends_step
              evs st roomId room room').
Qed.

Ltac not_created :=
  repeat constructor; intros (? & ? & ? & ? & ? & ? & Hcr); discriminate Hcr.

(** Two songs are added to the room of Alice and Bob and voted on: the
    room keeps its identity and its queue has grown at the end. *)
Lemma room_only_grows_witness :
  exists room room',
    rooms twoStore !! "ABC123"%string = Some room
    /\ rooms (run (drop 2 demoEvents) twoStore) !! "ABC123"%string = Some room'
    /\ r_id room' = r_id room /\ r_name room' = r_name room
    /\ r_createdBy room' = r_createdBy room /\ r_createdAt room' = r_createdAt room
    /\ r_queue room `prefix_of` r_queue room'
    /\ (forall k, is_Some (r_votes room !! k) -> is_Some (r_votes room' !! k)).
Proof.
  destruct (rooms twoStore !! "ABC123"%string) as [room|] eqn:Hroom;
    [|vm_compute in Hroom; discriminate Hroom].
  destruct (rooms (run (drop 2 demoEvents) twoStore) !! "ABC123"%string)
    as [room'|] eqn:Hroom'; [|vm_compute in Hroom'; discriminate Hroom'].
  exists room, room'. split; [reflexivity|]. split; [reflexivity|].
  apply (room_only_grows (drop 2 demoEvents) twoStore "ABC123" room room'
           Hroom Hroom').
  simpl. not_created.
Defined.

(** ** Rooms that are not active *)

Lemma closed_step st ev k room room' :
  rooms st !! k = Some room -> rooms (exec st ev) !! k = Some room' ->
  ~ createsAt k ev ->
  r_isActive room = false -> r_isActive room' = false /\ noNewcomer room room'.
Proof.
  intros Hroom Hk Hnc Hact. destruct ev as [req|now]; simpl in Hk.
  - destruct req; room_cases Hk;
      try (destruct Hnc; unfold createsAt; eauto 10; fail);
      try (rewrite Hact in *; done);
      try (split; [congruence|by intros q Hq]);
      (split; [done|]; intros q Hq; simpl in Hq;
       destruct (decide (participantId = q)) as [->|Hne];
       [by rewrite lookup_delete_eq in Hq; destruct Hq
       |by rewrite lookup_delete_ne in Hq]).
  - apply cleanup_rooms_Some in Hk. simplify_eq. split; [done|by intros p Hp].
Qed.

(** X9: a room that is not active gets no new participant and does not
    become active, whatever requests and sweeps follow, as long as it is
    stored under its code and no create request draws the code again. *)
Theorem inactive_room_is_closed (evs : list Event) (st : Store) (roomId : string)
    (room room' : Room) :
  rooms st !! roomId = Some room -> rooms (run evs st) !! roomId = Some room' ->
  Forall (fun ev => ~ createsAt roomId ev) evs ->
  r_isActive room = false ->
  r_isActive room' = false
  /\ forall participantId,
       is_Some (r_participants room' !! participantId) ->
       is_Some (r_participants room !! participantId).
Proof.
  intros Hroom Hk Hevs.
  apply (run_room_relation
           (fun a b => r_isActive a = false ->
                       r_isActive b = false /\ noNewcomer a b))
    with (evs := evs) (st := st) (k := roomId); try done.
  - intros a Ha. split; [done|by intros p Hp].
  - intros a b c Hab Hbc Ha. destruct (Hab Ha) as [Hb Hnab].
    destruct (Hbc Hb) as [Hc Hnbc]. split; [done|]. intros p Hp. auto.
  - apply closed_step.
Qed.

(** After the creator has left, a join and an add-song request of Bob
    follow: the room is still not active and Bob is its only participant. *)
Lemma inactive_room_is_closed_witness :
  let evs := [Req (ReqJoin "ABC123" (Some "Carol"%string) None "carol" 30);
              Req (ReqAddSong "ABC123" "bob"
                              (Some (mkSongFields "B" "Y" None 200 None)) "songB" 40)] in
  exists room room',
    rooms inactiveStore !! "ABC123"%string = Some room
    /\ rooms (run evs inactiveStore) !! "ABC123"%string = Some room'
    /\ r_isActive room' = false
    /\ forall participantId,
         is_Some (r_participants room' !! participantId) ->
         is_Some (r_participants room !! participantId).
Proof.
  intros evs.
  destruct (rooms inactiveStore !! "ABC123"%string) as [room|] eqn:Hroom;
    [|vm_compute in Hroom; discriminate Hroom].
  destruct (rooms (run evs inactiveStore) !! "ABC123"%string)
    as [room'|] eqn:Hroom'; [|vm_compute in Hroom'; discriminate Hroom'].
  exists room, room'. split; [reflexivity|]. split; [reflexivity|].
  apply (inactive_room_is_closed evs inactiveStore "ABC123" room room'
           Hroom Hroom').
  - subst evs. not_created.
  - vm_compute in Hroom. injection Hroom as <-. reflexivity.
Defined.

(** ** Requests and the other rooms *)



(** ** Sweeping twice *)

Lemma expiredMember_dec now m pid : Decision (expiredMember now m pid).
Proof.
  destruct (decide (map_Exists
                      (fun (_ : string) room =>
                         expired now room = true
                         /\ is_Some (r_participants room !! pid)) m))
    as [Hyes|Hno]; [left|right]; exact Hyes || exact Hno.
Qed.

Lemma expired_later now1 now2 room :
  now1 <= now2 -> expired now1 room = true -> expired now2 room = true.
Proof.
  intros Hle. unfold expired. rewrite !orb_true_iff, !Z.gtb_ltb, !Z.ltb_lt.
  intros [?|?]; [by left|right; lia].
Qed.

Lemma cleanup_index_gone now st pid :
  expiredMember now (rooms st) pid ->
  participantRooms (cleanup now st) !! pid = None.
Proof. apply (visit_fold_index now st (rooms st) pid). Qed.

Lemma cleanup_index_kept now st pid :
  ~ expiredMember now (rooms st) pid ->
  participantRooms (cleanup now st) !! pid = participantRooms st !! pid.
Proof. apply (visit_fold_index now st (rooms st) pid). Qed.

Lemma store_eq (a b : Store) :
  rooms a = rooms b -> participantRooms a = participantRooms b -> a = b.
Proof. destruct a, b; simpl; congruence. Qed.

Lemma cleanup_cleanup now1 now2 st :
  now1 <= now2 -> cleanup now2 (cleanup now1 st) = cleanup now2 st.
Proof.
  intros Hle. apply store_eq; apply map_eq; intros i.
  - rewrite !cleanup_rooms_lookup.
    destruct (rooms st !! i) as [room|]; [|done].
    destruct (expired now1 room) eqn:H1; [|done].
    by rewrite (expired_later now1 now2 room Hle H1).
  - destruct (expiredMember_dec now2 (rooms st) i) as [Hyes|Hno].
    + rewrite (cleanup_index_gone now2 st i Hyes).
      destruct (expiredMember_dec now2 (rooms (cleanup now1 st)) i) as [Hyes1|Hno1].
      { by apply cleanup_index_gone. }
      rewrite (cleanup_index_kept now2 _ i Hno1).
      destruct Hyes as (k & room & Hk & Hexp & Hp).
      destruct (expired now1 room) eqn:H1.
      * apply cleanup_index_gone. by exists k, room.
      * destruct Hno1. exists k, room. split; [|done].
        by rewrite cleanup_rooms_lookup, Hk, H1.
    + rewrite (cleanup_index_kept now2 st i Hno).
      rewrite cleanup_index_kept.
      * apply cleanup_index_kept. intros (k & room & Hk & Hexp & Hp).
        apply Hno. exists k, room. eauto using expired_later.
      * intros (k & room & Hk & Hexp & Hp). apply Hno. exists k, room.
        split; [by eapply cleanup_rooms_Some|done].
Qed.

(** X11: a sweep followed by a sweep at the same or a later time leaves
    the store as the later sweep alone does; so a sweep repeated at once
    changes nothing, and after a sweep every stored room is active and at
    most 24 hours old. *)
Theorem cleanup_twice :
  (forall now1 now2 st,
      now1 <= now2 -> cleanup now2 (cleanup now1 st) = cleanup now2 st)
  /\ (forall now st, cleanup now (cleanup now st) = cleanup now st)
  /\ (forall now st roomId room,
        rooms (cleanup now st) !! roomId = Some room ->
        r_isActive room = true /\ now - r_createdAt room <= 24 * 60 * 60 * 1000).
Proof.
  split_and!.
  - apply cleanup_cleanup.
  - intros now st. by apply cleanup_cleanup.
  - intros now st roomId room. rewrite cleanup_rooms_lookup.
    destruct (rooms st !! roomId) as [room0|]; [|done].
    destruct (expired now room0) eqn:Hexp; [done|]. intros [= ->].
    unfold expired, ROOM_TIMEOUT in Hexp.
    apply orb_false_iff in Hexp as [Hact Hage].
    apply negb_false_iff in Hact. rewrite Z.gtb_ltb in Hage.
    apply Z.ltb_ge in Hage. split; [done|lia].
Qed.

Lemma cleanup_twice_witness :
  cleanup 90000000 (cleanup 3600000 agedStore) = cleanup 90000000 agedStore.
Proof.
  destruct cleanup_twice as (Htwice & _).
  apply (Htwice 3600000 90000000 agedStore). vm_compute. discriminate.
Defined.

(** ** Reading the state of a room *)

Lemma getRoomState_inr roomId pid st state :
  getRoomState roomId pid st = inr state ->
  exists room,
    rooms st !! roomId = Some room
    /\ state
       = mkRoomState (r_id room) (r_name room)
           (participantList (r_participants room))
           ((fun song =>
               mkSongView song
                 (calculateSongScore (votesOf (r_votes room) (s_id song)))
                 ((fun vote =>
                     mkVoteView vote (r_participants room !! v_participantId vote))
                    <$> votesOf (r_votes room) (s_id song)))
              <$> sortQueueByVotes (r_queue room) (r_votes room))
           (r_currentSong room) (r_isActive room).
Proof.
  unfold getRoomState. destruct (rooms st !! roomId) as [room|]; [|done].
  destruct (_ && _); [done|]. intros [= <-]. by exists room.
Qed.

(** X12: the state of a room is refused with room-not-found exactly when
    no room is stored under the code, and with not-a-participant exactly
    when a participant id is given, not empty, and not in the room. With
    no participant id, or an empty one, the state of any stored room is
    answered, active or not. *)
Theorem getRoomState_access (roomId : string) (participantId : option string)
    (st : Store) :
  (getRoomState roomId participantId st = inl RoomNotFound
   <-> rooms st !! roomId = None)
  /\ (forall room, rooms st !! roomId = Some room ->
        (getRoomState roomId participantId st = inl NotAParticipant
         <-> falsy participantId = false
             /\ r_participants room !! text participantId = None))
  /\ (forall room, rooms st !! roomId = Some room ->
        falsy participantId = true
        \/ is_Some (r_participants room !! text participantId) ->
        exists state, getRoomState roomId participantId st = inr state)
  /\ (forall e, getRoomState roomId participantId st = inl e ->
        e = RoomNotFound \/ e = NotAParticipant).
Proof.
  unfold getRoomState. split_and!.
  - destruct (rooms st !! roomId) as [room|]; [|done].
    destruct (_ && _); split; done.
  - intros room ->. destruct (falsy participantId); simpl.
    { split; [done|]. by intros [? _]. }
    case_bool_decide as Hp; simpl.
    + split; [done|]. intros [_ Hnone]. rewrite Hnone in Hp. by destruct Hp.
    + split; [|done]. intros _. split; [done|]. by apply eq_None_not_Some.
  - intros room -> [Hf|Hp].
    + rewrite Hf. simpl. by eexists.
    + rewrite (bool_decide_eq_true_2 _ Hp), andb_false_r. by eexists.
  - intros e. destruct (rooms st !! roomId) as [room|]; [|intros [= <-]; by left].
    destruct (_ && _); [intros [= <-]; by right|done].
Qed.

Lemma getRoomState_access_witness :
  exists state, getRoomState "ABC123" None inactiveStore = inr state.
Proof.
  destruct (rooms inactiveStore !! "ABC123"%string) as [room|] eqn:Hroom;
    [|vm_compute in Hroom; discriminate Hroom].
  destruct (getRoomState_access "ABC123" None inactiveStore) as (_ & _ & Hread & _).
  apply (Hread room Hroom). left. reflexivity.
Defined.

(** X13: the state answered for a room lists the songs of its queue in
    ranked order, each with the score of the votes listed with it, which
    are the votes stored for the song; the scores shown are in descending
    order; the participants listed are as many as the room has. *)
Theorem getRoomState_snapshot (roomId : string) (participantId : option string)
    (st : Store) (state : RoomState) :
  getRoomState roomId participantId st = inr state ->
  exists room,
    rooms st !! roomId = Some room
    /\ sv_song <$> rs_queue state = sortQueueByVotes (r_queue room) (r_votes room)
    /\ sv_song <$> rs_queue state ≡ₚ r_queue room
    /\ StronglySorted (fun a b => sv_score b <= sv_score a) (rs_queue state)
    /\ Forall (fun x =>
                 vv_vote <$> sv_votes x = votesOf (r_votes room) (s_id (sv_song x))
                 /\ sv_score x = calculateSongScore (vv_vote <$> sv_votes x)
                 /\ Forall (fun vv =>
                              vv_participant vv
                              = r_participants room !! v_participantId (vv_vote vv))
                           (sv_votes x))
              (rs_queue state)
    /\ length (rs_participants state) = size (r_participants room)
    /\ rs_isActive state = r_isActive room.
Proof.
  intros (room & Hroom & ->)%getRoomState_inr. exists room. simpl.
  match goal with
  | |- _ /\ ?l = ?r /\ _ =>
      assert (l = r) as Hq by (rewrite <- list_fmap_compose; apply list_fmap_id)
  end.
  split_and!; try done.
  - rewrite Hq. apply (array_sort_perm (songScore (r_votes room))).
  - apply (StronglySorted_fmap _ (scoreGe (r_votes room))); [done|].
    apply (array_sort_sorted (songScore (r_votes room))).
  - apply Forall_fmap, Forall_forall. intros song _. simpl.
    rewrite <- list_fmap_compose.
    assert (vv_vote ∘ (fun vote =>
                         mkVoteView vote
                           (r_participants room !! v_participantId vote)) <$>
              votesOf (r_votes room) (s_id song)
            = votesOf (r_votes room) (s_id song)) as Heq by apply list_fmap_id.
    split_and!; [done|by rewrite Heq|].
    apply Forall_fmap, Forall_forall. by intros vote _.
  - unfold participantList. by rewrite length_fmap, length_map_to_list.
Qed.

Lemma getRoomState_snapshot_witness :
  exists state room,
    getRoomState "ABC123" (Some "bob"%string) demoStore = inr state
    /\ rooms demoStore !! "ABC123"%string = Some room
    /\ sv_song <$> rs_queue state = sortQueueByVotes (r_queue room) (r_votes room)
    /\ StronglySorted (fun a b => sv_score b <= sv_score a) (rs_queue state).
Proof.
  destruct (getRoomState "ABC123" (Some "bob"%string) demoStore)
    as [e|state] eqn:Hstate; [vm_compute in Hstate; discriminate Hstate|].
  destruct (getRoomState_snapshot "ABC123" (Some "bob"%string) demoStore state
              Hstate) as (room & Hroom & Hq & _ & Hs & _).
  exists state, room. split; [reflexivity|]. split; [exact Hroom|].
  split; [exact Hq|exact Hs].
Defined.

(** X14: in a reachable state, every vote in the state answered for a
    room comes with the participant who cast it, no two votes listed with
    a song are by the same participant, and each is a vote on that song. *)
Theorem getRoomState_votes_have_voters (roomId : string)
    (participantId : option string) (st : Store) (state : RoomState) :
  reachable st -> getRoomState roomId participantId st = inr state ->
  Forall (fun x =>
            Forall (fun vv =>
                      is_Some (vv_participant vv)
                      /\ v_songId (vv_vote vv) = s_id (sv_song x))
                   (sv_votes x)
            /\ NoDup ((fun vv => v_participantId (vv_vote vv)) <$> sv_votes x))
         (rs_queue state).
Proof.
  intros Hst (room & Hroom & ->)%getRoomState_inr. simpl.
  destruct (reachable_storeInv st Hst roomId room Hroom) as [_ _ Hvoters _].
  destruct (reachable_storeOk st Hst roomId room Hroom) as [_ Hledger].
  apply Forall_fmap, Forall_forall. intros song _. simpl.
  destruct (ledgerOk_votesOf _ (s_id song) Hledger) as [Hsong Hnd]. split.
  - apply Forall_fmap, Forall_forall. intros vote Hvote. simpl. split.
    + apply Hvoters. apply votesOf_elem in Hvote as (l & Hl & Hin).
      by exists (s_id song), l.
    + rewrite Forall_forall in Hsong. by apply Hsong.
  - by rewrite <- list_fmap_compose.
Qed.

Lemma getRoomState_votes_have_voters_witness :
  exists state,
    getRoomState "ABC123" None demoStore = inr state
    /\ Forall (fun x =>
                 Forall (fun vv =>
                           is_Some (vv_participant vv)
                           /\ v_songId (vv_vote vv) = s_id (sv_song x))
                        (sv_votes x)
                 /\ NoDup ((fun vv => v_participantId (vv_vote vv)) <$> sv_votes x))
              (rs_queue state).
Proof.
  destruct (getRoomState "ABC123" None demoStore)
    as [e|state] eqn:Hstate; [vm_compute in Hstate; discriminate Hstate|].
  exists state. split; [reflexivity|].
  exact (getRoomState_votes_have_voters "ABC123" None demoStore state
           reachable_demoStore Hstate).
Defined.

(** ** Joining, leaving and what follows *)

Lemma addSong_accepts roomId room pid song songId now st :
  rooms st !! roomId = Some room ->
  is_Some (r_participants room !! pid) ->
  isFailure (addSong roomId pid (Some song) songId now st).2 = false.
Proof.
  intros Hroom Hp. unfold addSong.
  by rewrite Hroom, (bool_decide_eq_true_2 _ Hp).
Qed.

Lemma getRoomState_accepts roomId room pid st :
  rooms st !! roomId = Some room ->
  is_Some (r_participants room !! pid) ->
  exists state, getRoomState roomId (Some pid) st = inr state.
Proof.
  intros Hroom Hp. unfold getRoomState. rewrite Hroom. simpl.
  rewrite (bool_decide_eq_true_2 _ Hp), andb_false_r. by eexists.
Qed.

Lemma joinRoom_stores roomId room name avatar pid now st :
  falsy name = false -> rooms st !! roomId = Some room -> r_isActive room = true ->
  exists view,
    joinRoom roomId name avatar pid now st
    = (mkStore
         (<[roomId :=
              mkRoom (r_id room) (r_name room) (r_createdBy room) (r_createdAt room)
                     (<[pid := mkParticipant pid (text name) avatar now]>
                        (r_participants room))
                     (r_queue room) (r_currentSong room) (r_votes room)
                     (r_isActive room)]> (rooms st))
         (<[pid := roomId]> (participantRooms st)),
       Success (Joined pid view))
    /\ rv_queue view = sortQueueByVotes (r_queue room) (r_votes room)
    /\ rv_participants view
       = participantList (<[pid := mkParticipant pid (text name) avatar now]>
                            (r_participants room))
    /\ rv_isActive view = true.
Proof.
  intros Hn Hroom Hact. unfold joinRoom. rewrite Hn, Hroom, Hact. simpl.
  eexists. split; [reflexivity|]. done.
Qed.

(** X15: the participant id answered by a create request, or by a join
    request that succeeds, is sent to the room by the index, and with it
    the room accepts an add-song request with a song, a vote up or down on
    any song id, and a read of its state. *)
Theorem new_participant_is_accepted :
  (forall name creatorName creatorAvatar roomId participantId joinedAt createdAt st,
      falsy name = false -> falsy creatorName = false ->
      let st' := (createRoom name creatorName creatorAvatar roomId participantId
                             joinedAt createdAt st).1 in
      participantRooms st' !! participantId = Some roomId
      /\ (forall song songId now,
            isFailure (addSong roomId participantId (Some song) songId now st').2
            = false)
      /\ (forall songId vote now, is_Some (parseVote vote) ->
            isFailure (castVote roomId participantId songId vote now st').2 = false)
      /\ exists state, getRoomState roomId (Some participantId) st' = inr state)
  /\ (forall roomId room name avatar participantId joinedAt st,
        falsy name = false -> rooms st !! roomId = Some room ->
        r_isActive room = true ->
        let st' := (joinRoom roomId name avatar participantId joinedAt st).1 in
        participantRooms st' !! participantId = Some roomId
        /\ (forall song songId now,
              isFailure (addSong roomId participantId (Some song) songId now st').2
              = false)
        /\ (forall songId vote now, is_Some (parseVote vote) ->
              isFailure (castVote roomId participantId songId vote now st').2 = false)
        /\ exists state, getRoomState roomId (Some participantId) st' = inr state).
Proof.
  split.
  - intros name cn av roomId pid t1 t2 st Hn Hc st'. subst st'.
    rewrite (createRoom_stores _ _ _ _ _ _ _ _ Hn Hc). simpl.
    set (room := newRoom name cn av roomId pid t1 t2).
    assert (is_Some (r_participants room !! pid)) as Hp.
    { simpl. rewrite lookup_singleton_eq. by eexists. }
    split_and!.
    + by rewrite lookup_insert_eq.
    + intros. eapply addSong_accepts; [|exact Hp]. simpl. by rewrite lookup_insert_eq.
    + intros. eapply castVote_accepts; [|exact Hp|done]. simpl.
      by rewrite lookup_insert_eq.
    + eapply getRoomState_accepts; [|exact Hp]. simpl. by rewrite lookup_insert_eq.
  - intros roomId room name av pid now st Hn Hroom Hact st'. subst st'.
    destruct (joinRoom_stores roomId room name av pid now st Hn Hroom Hact)
      as (view & -> & _). simpl.
    match goal with
    | |- context [<[roomId := ?r]> (rooms st)] => set (room' := r)
    end.
    assert (is_Some (r_participants room' !! pid)) as Hp.
    { simpl. rewrite lookup_insert_eq. by eexists. }
    split_and!.
    + by rewrite lookup_insert_eq.
    + intros. eapply addSong_accepts; [|exact Hp]. simpl. by rewrite lookup_insert_eq.
    + intros. eapply castVote_accepts; [|exact Hp|done]. simpl.
      by rewrite lookup_insert_eq.
    + eapply getRoomState_accepts; [|exact Hp]. simpl. by rewrite lookup_insert_eq.
Qed.

Lemma new_participant_is_accepted_witness :
  let st' := (joinRoom "ABC123" (Some "Carol"%string) None "carol" 100 demoStore).1 in
  participantRooms st' !! "carol"%string = Some "ABC123"%string
  /\ (forall song songId now,
        isFailure (addSong "ABC123" "carol" (Some song) songId now st').2 = false)
  /\ (forall songId vote now, is_Some (parseVote vote) ->
        isFailure (castVote "ABC123" "carol" songId vote now st').2 = false)
  /\ exists state, getRoomState "ABC123" (Some "carol"%string) st' = inr state.
Proof.
  destruct (rooms demoStore !! "ABC123"%string) as [room|] eqn:Hroom;
    [|vm_compute in Hroom; discriminate Hroom].
  destruct new_participant_is_accepted as (_ & Hjoin).
  apply (Hjoin "ABC123"%string room (Some "Carol"%string) None "carol"%string 100
               demoStore).
  - reflexivity.
  - exact Hroom.
  - vm_compute in Hroom. injection Hroom as <-. reflexivity.
Defined.

(** X16: after a leave that succeeds the index has no entry for the
    participant, and the room answers not-a-participant to an add-song
    request, a vote and a read with that participant id, and
    participant-not-found to a second leave. *)
Theorem departed_participant_is_refused (roomId participantId : string) (st : Store) :
  (leaveRoom roomId participantId st).2 = Success Left ->
  let st' := (leaveRoom roomId participantId st).1 in
  participantRooms st' !! participantId = None
  /\ (forall song songId now,
        addSong roomId participantId song songId now st'
        = (st', Failure NotAParticipant))
  /\ (forall songId vote now, is_Some (parseVote vote) ->
        castVote roomId participantId songId vote now st'
        = (st', Failure NotAParticipant))
  /\ leaveRoom roomId participantId st' = (st', Failure ParticipantNotFound)
  /\ (participantId <> EmptyString ->
      getRoomState roomId (Some participantId) st' = inl NotAParticipant).
Proof.
  intros Hok st'. subst st'. unfold leaveRoom in *.
  destruct (rooms st !! roomId) as [room|] eqn:Hroom; [|done].
  destruct (r_participants room !! participantId) as [p|] eqn:Hp; [|done].
  clear Hok. simpl.
  assert (delete participantId (r_participants room) !! participantId = None)
    as Hgone by apply lookup_delete_eq.
  assert (bool_decide
            (is_Some (delete participantId (r_participants room) !! participantId))
          = false) as Hnot.
  { apply bool_decide_eq_false_2. rewrite Hgone. by intros [? ?]. }
  split_and!.
  - apply lookup_delete_eq.
  - intros. unfold addSong. simpl. rewrite lookup_insert_eq. simpl.
    by rewrite Hnot.
  - intros songId vote now [d Hd]. unfold castVote. simpl.
    rewrite Hd, lookup_insert_eq. simpl. by rewrite Hnot.
  - simpl. rewrite lookup_insert_eq. simpl. by rewrite Hgone.
  - intros Hne. unfold getRoomState. simpl. rewrite lookup_insert_eq. simpl.
    by rewrite Hnot, (bool_decide_eq_false_2 _ Hne).
Qed.

Lemma departed_participant_is_refused_witness :
  let st' := (leaveRoom "ABC123" "bob" demoStore).1 in
  participantRooms st' !! "bob"%string = None
  /\ (forall song songId now,
        addSong "ABC123" "bob" song songId now st'
        = (st', Failure NotAParticipant))
  /\ (forall songId vote now, is_Some (parseVote vote) ->
        castVote "ABC123" "bob" songId vote now st'
        = (st', Failure NotAParticipant))
  /\ leaveRoom "ABC123" "bob" st' = (st', Failure ParticipantNotFound)
  /\ ("bob"%string <> EmptyString ->
      getRoomState "ABC123" (Some "bob"%string) st' = inl NotAParticipant).
Proof.
  apply (departed_participant_is_refused "ABC123" "bob" demoStore). reflexivity.
Defined.

(** ** Which error is answered *)




(** ** What create and join answer *)

Lemma participantList_elem (ps : gmap string Participant) pid p :
  ps !! pid = Some p -> p ∈ participantList ps.
Proof.
  intros Hp. unfold participantList.
  apply list_elem_of_fmap. exists (pid, p). split; [done|].
  by apply elem_of_map_to_list.
Qed.

(** X18: a create request that succeeds answers a room with the creator as
    its one participant, an empty queue and the active flag; a join that
    succeeds answers the room with the new participant among as many
    participants as the room then has, one more than before when the id
    is new to the room, and with the queue ranked. *)
Theorem replies_show_the_room :
  (forall name creatorName creatorAvatar roomId participantId joinedAt createdAt st,
      falsy name = false -> falsy creatorName = false ->
      exists view,
        (createRoom name creatorName creatorAvatar roomId participantId
                    joinedAt createdAt st).2
        = Success (Created roomId participantId view)
        /\ rv_id view = roomId
        /\ rv_participants view
           = [mkParticipant participantId (text creatorName) creatorAvatar joinedAt]
        /\ rv_queue view = [] /\ rv_isActive view = true)
  /\ (forall roomId room name avatar participantId now st,
        falsy name = false -> rooms st !! roomId = Some room ->
        r_isActive room = true ->
        exists view,
          (joinRoom roomId name avatar participantId now st).2
          = Success (Joined participantId view)
          /\ mkParticipant participantId (text name) avatar now
             ∈ rv_participants view
          /\ (r_participants room !! participantId = None ->
              length (rv_participants view) = S (size (r_participants room)))
          /\ (forall q p, r_participants room !! q = Some p ->
                q <> participantId -> p ∈ rv_participants view)
          /\ rv_queue view = sortQueueByVotes (r_queue room) (r_votes room)
          /\ rv_queue view ≡ₚ r_queue room).
Proof.
  split.
  - intros name cn av roomId pid t1 t2 st Hn Hc.
    rewrite (createRoom_stores _ _ _ _ _ _ _ _ Hn Hc). simpl.
    eexists. split; [done|]. simpl. split_and!; try done.
    unfold participantList. by rewrite map_to_list_singleton.
  - intros roomId room name av pid now st Hn Hroom Hact.
    destruct (joinRoom_stores roomId room name av pid now st Hn Hroom Hact)
      as (view & -> & Hq & Hps & _).
    exists view. simpl. rewrite Hps, Hq. split_and!; try done.
    + eapply participantList_elem. apply lookup_insert_eq.
    + intros Hnew. unfold participantList.
      rewrite length_fmap, length_map_to_list. by apply map_size_insert_None.
    + intros q p Hp Hne. apply (participantList_elem _ q).
      rewrite lookup_insert_ne; [exact Hp|done].
    + apply (array_sort_perm (songScore (r_votes room))).
Qed.

Lemma replies_show_the_room_witness :
  exists view,
    (joinRoom "ABC123" (Some "Carol"%string) None "carol" 100 demoStore).2
    = Success (Joined "carol" view)
    /\ mkParticipant "carol" "Carol" None 100 ∈ rv_participants view
    /\ length (rv_participants view) = 3%nat
    /\ s_id <$> rv_queue view = ["songB"%string; "songA"%string].
Proof.
  destruct (rooms demoStore !! "ABC123"%string) as [room|] eqn:Hroom;
    [|vm_compute in Hroom; discriminate Hroom].
  destruct replies_show_the_room as (_ & Hjoin).
  destruct (Hjoin "ABC123"%string room (Some "Carol"%string) None "carol"%string 100
                  demoStore eq_refl Hroom)
    as (view & Hview & Hin & Hlen & _ & Hq & _).
  - vm_compute in Hroom. injection Hroom as <-. reflexivity.
  - exists view. split; [exact Hview|]. split; [exact Hin|].
    vm_compute in Hroom. injection Hroom as <-. split.
    + rewrite Hlen; reflexivity.
    + rewrite Hq. vm_compute. reflexivity.
Defined.

(** ** The room code *)

Lemma length_toUpperCase s : String.length (toUpperCase s) = String.length s.
Proof. induction s as [|c s IH]; simpl; [done|]. by rewrite IH. Qed.

Lemma length_substring s :
  forall n m, String.length (String.substring n m s)
              = Nat.min m (String.length s - n).
Proof.
  induction s as [|c s IH]; intros [|n] [|m]; simpl; try done;
    rewrite IH; try done.
  by rewrite Nat.sub_0_r.
Qed.

Lemma upperAscii_not_lower c :
  ((97 <=? Ascii.nat_of_ascii (upperAscii c))
   && (Ascii.nat_of_ascii (upperAscii c) <=? 122))%nat = false.
Proof. destruct c as [[] [] [] [] [] [] [] []]; reflexivity. Qed.

Lemma upperAscii_idemp c : upperAscii (upperAscii c) = upperAscii c.
Proof. unfold upperAscii at 1. by rewrite upperAscii_not_lower. Qed.

Lemma toUpperCase_idemp s : toUpperCase (toUpperCase s) = toUpperCase s.
Proof.
  induction s as [|c s IH]; simpl; [done|]. by rewrite upperAscii_idemp, IH.
Qed.

Lemma toUpperCase_not_lower s :
  Forall (fun c => ((97 <=? Ascii.nat_of_ascii c)
                    && (Ascii.nat_of_ascii c <=? 122))%nat = false)
         (String.list_ascii_of_string (toUpperCase s)).
Proof.
  induction s as [|c s IH]; simpl; constructor; [apply upperAscii_not_lower|done].
Qed.

(** X19: the room code made from the base-36 text of the random number has
    the characters of the text from the third to the eighth, so at most
    six, fewer when the text is short and none when it has at most two
    characters; it holds no lower-case letter, and putting it in upper
    case again gives the same code. *)
Theorem generateRoomCode_shape (random36 : string) :
  String.length (generateRoomCode random36)
  = Nat.min 6 (String.length random36 - 2)
  /\ (String.length (generateRoomCode random36) <= 6)%nat
  /\ ((String.length random36 <= 2)%nat -> generateRoomCode random36 = EmptyString)
  /\ Forall (fun c => ((97 <=? Ascii.nat_of_ascii c)
                       && (Ascii.nat_of_ascii c <=? 122))%nat = false)
            (String.list_ascii_of_string (generateRoomCode random36))
  /\ toUpperCase (generateRoomCode random36) = generateRoomCode random36.
Proof.
  unfold generateRoomCode.
  assert (String.length (toUpperCase (String.substring 2 6 random36))
          = Nat.min 6 (String.length random36 - 2)) as Hlen
    by by rewrite length_toUpperCase, length_substring.
  split_and!.
  - done.
  - rewrite Hlen. lia.
  - intros Hshort.
    assert (String.length (toUpperCase (String.substring 2 6 random36)) = 0%nat)
      as Hzero by (rewrite Hlen; lia).
    destruct (toUpperCase (String.substring 2 6 random36)) as [|c s];
      [done|discriminate Hzero].
  - apply toUpperCase_not_lower.
  - apply toUpperCase_idemp.
Qed.

Lemma generateRoomCode_shape_witness :
  generateRoomCode "0" = EmptyString.
Proof.
  destruct (generateRoomCode_shape "0") as (_ & _ & Hshort & _).
  apply Hshort. simpl. lia.
Defined.

Example generateRoomCode_of_text :
  generateRoomCode "0.4fzyo82mvyr" = "4FZYO8"%string
  /\ generateRoomCode "0.i" = "I"%string.
Proof. split; reflexivity. Qed.

(** ** Where a new song is ranked *)

Lemma snoc_is_last {A} (a b c : list A) (x : A) :
  a ++ x :: b = c ++ [x] -> x ∉ c -> b = [].
Proof.
  revert c. induction a as [|z a IH]; intros [|y c] Heq Hx; simplify_eq/=.
  - done.
  - destruct Hx. apply list_elem_of_here.
  - by destruct a.
  - apply (IH c); [done|]. intros Hin. apply Hx. by apply list_elem_of_further.
Qed.

Lemma new_element_rank {A} (key : A -> Z) (l : list A) (x : A) :
  x ∉ l ->
  exists l1 l2,
    array_sort (fun a b : A => key b - key a) (l ++ [x]) = l1 ++ x :: l2
    /\ Forall (fun y => key x <= key y) l1
    /\ Forall (fun y => key y < key x) l2
    /\ l1 ++ l2 ≡ₚ l.
Proof.
  intros Hx.
  pose proof (array_sort_perm key (l ++ [x])) as Hperm.
  pose proof (array_sort_sorted key (l ++ [x])) as Hsorted.
  pose proof (array_sort_stable key (key x) (l ++ [x])) as Hstable.
  assert (x ∈ array_sort (fun a b : A => key b - key a) (l ++ [x])) as Hin.
  { rewrite Hperm. apply elem_of_app. right. apply list_elem_of_here. }
  apply list_elem_of_split in Hin as (l1 & l2 & Hsplit).
  rewrite Hsplit in *. exists l1, l2. split; [done|].
  apply StronglySorted_app in Hsorted as (Hcross & _ & H2).
  apply StronglySorted_cons in H2 as [Hafter _].
  rewrite !filter_app, (filter_cons _ x l2), (filter_cons _ x []) in Hstable.
  rewrite !decide_True, filter_nil in Hstable by done.
  assert (filter (fun a => key a = key x) l2 = []) as Hnone.
  { apply (snoc_is_last _ _ _ _ Hstable). intros Hin.
    apply list_elem_of_filter in Hin as [_ Hin]. done. }
  split_and!.
  - apply Forall_forall. intros y Hy. apply (Hcross y x Hy), list_elem_of_here.
  - apply Forall_forall. intros y Hy.
    rewrite Forall_forall in Hafter. specialize (Hafter y Hy). simpl in Hafter.
    destruct (decide (key y = key x)) as [Heq|Hne]; [|lia].
    assert (y ∈ filter (fun a => key a = key x) l2) as Hbad
      by by apply list_elem_of_filter.
    rewrite Hnone in Hbad. by apply elem_of_nil in Hbad.
  - apply Permutation_cons_inv with x.
    rewrite Permutation_middle, Hperm. symmetry. apply Permutation_cons_append.
Qed.

(** X20: when a participant adds a song under an id that no song of the
    queue has, the song is appended to the queue with score 0, the scores
    of the other songs stay, and in the ranking the new song stands after
    every song that scores 0 or more and before every song that scores
    less than 0. *)
Theorem added_song_rank (st : Store) (roomId : string) (room : Room)
    (participantId : string) (song : SongFields) (songId : string) (now : Z) :
  rooms st !! roomId = Some room ->
  is_Some (r_participants room !! participantId) ->
  (forall s, s ∈ r_queue room -> s_id s <> songId) ->
  let newSong := mkSong songId (sf_title song) (sf_artist song) (sf_albumArt song)
                        (sf_duration song) (sf_spotifyId song) participantId now in
  exists room' l1 l2,
    rooms (addSong roomId participantId (Some song) songId now st).1 !! roomId
    = Some room'
    /\ r_queue room' = r_queue room ++ [newSong]
    /\ songScore (r_votes room') newSong = 0
    /\ (forall s, s ∈ r_queue room ->
          songScore (r_votes room') s = songScore (r_votes room) s)
    /\ sortQueueByVotes (r_queue room') (r_votes room') = l1 ++ newSong :: l2
    /\ Forall (fun s => 0 <= songScore (r_votes room') s) l1
    /\ Forall (fun s => songScore (r_votes room') s < 0) l2
    /\ l1 ++ l2 ≡ₚ r_queue room.
Proof.
  intros Hroom Hp Hfresh newSong. unfold addSong.
  rewrite Hroom, (bool_decide_eq_true_2 _ Hp). simpl.
  set (votes' := <[songId := []]> (r_votes room)).
  assert (songScore votes' newSong = 0) as Hzero.
  { unfold songScore, votesOf, votes'. simpl. by rewrite lookup_insert_eq. }
  assert (newSong ∉ r_queue room) as Hnew.
  { intros Hin. by apply (Hfresh newSong Hin). }
  destruct (new_element_rank (songScore votes') (r_queue room) newSong Hnew)
    as (l1 & l2 & Hsort & H1 & H2 & Hperm).
  eexists _, l1, l2. rewrite lookup_insert_eq. split; [done|]. simpl.
  fold newSong. fold votes'. rewrite Hzero in H1, H2. split_and!; try done.
  intros s Hs. unfold songScore, votesOf, votes'.
  rewrite lookup_insert_ne; [done|]. intros Heq. by apply (Hfresh s Hs).
Qed.

(** A third song is added to the sample room, where the second song
    scores 2 and the first -1: it is ranked between them. *)
Lemma added_song_rank_witness :
  exists room',
    rooms (addSong "ABC123" "bob" (Some (mkSongFields "C" "Z" None 210 None))
                   "songC" 100 demoStore).1 !! "ABC123"%string = Some room'
    /\ s_id <$> sortQueueByVotes (r_queue room') (r_votes room')
       = ["songB"%string; "songC"%string; "songA"%string].
Proof.
  destruct (rooms demoStore !! "ABC123"%string) as [room|] eqn:Hroom;
    [|vm_compute in Hroom; discriminate Hroom].
  destruct (added_song_rank demoStore "ABC123" room "bob"
              (mkSongFields "C" "Z" None 210 None) "songC" 100 Hroom)
    as (room' & l1 & l2 & Hroom' & _).
  - vm_compute in Hroom. injection Hroom as <-. eexists. vm_compute. reflexivity.
  - vm_compute in Hroom. injection Hroom as <-. intros s Hs.
    apply elem_of_cons in Hs as [->|Hs]; [discriminate|].
    apply list_elem_of_singleton in Hs as ->. discriminate.
  - exists room'. split; [exact Hroom'|].
    vm_compute in Hroom'. injection Hroom' as <-. vm_compute. reflexivity.
Defined.
